(** * The aggregation-and-comparison engine of the raid dashboard

    A shallow embedding of [load_table], [aggregate], [compute_comparison]
    and the top-N selection of [main] from [dashboard.py]
    ([dashboard_streamlit.py] carries the same functions).

    Data frames are lists of rows, a group-by is a finite map from the
    group key to its sum, [int64] columns are integers with their
    wrap-around written out, and [float64] columns are the values
    a binary64 holds: not-a-number, the two infinities, or a rational
    that has been rounded to 53 significant bits. *)

From Stdlib Require Import ZArith QArith Qround Qreduction Qabs Lqa Ascii String DecimalString.
From stdpp Require Import gmap strings list sorting.

Local Open Scope Z_scope.

(** ** Machine numbers *)

Module Int64.

Definition min_int : Z := - 2 ^ 63.
Definition max_int : Z := 2 ^ 63 - 1.

Definition in_range (z : Z) : bool := (min_int <=? z) && (z <=? max_int).

(** Two's-complement wrap-around of [int64] addition. *)
Definition wrap (z : Z) : Z := (z + 2 ^ 63) mod 2 ^ 64 - 2 ^ 63.

Definition add (x y : Z) : Z := wrap (x + y).

End Int64.

Module UInt64.

Definition max_int : Z := 2 ^ 64 - 1.

End UInt64.

(** The values of a [float64].  Signed zeros and subnormals are not told
    apart: no operation on [int64] operands produces them, and a value
    that small is 0 once it is converted to an integer. *)
Inductive float64 : Type :=
  | NaN
  | Inf (negative : bool)
  | Fin (q : Q).

Module Float.

(** Nearest integer to [n / d] for [0 <= n] and [0 < d], ties to even. *)
Definition round_half_even (n d : Z) : Z :=
  let q := n / d in
  match (2 * (n mod d)) ?= d with
  | Lt => q
  | Gt => q + 1
  | Eq => if Z.even q then q else q + 1
  end.

(** [n / d / 2 ^ k] as a fraction of integers. *)
Definition scale (n d k : Z) : Z * Z :=
  if 0 <=? k then (n, d * 2 ^ k) else (n * 2 ^ (- k), d).

(** The [e] with [2 ^ e <= n / d < 2 ^ (e + 1)]. *)
Definition binade (n d : positive) : Z :=
  let k := Z.log2 (Z.pos n) - Z.log2 (Z.pos d) in
  let '(n', d') := scale (Z.pos n) (Z.pos d) k in
  if d' <=? n' then k else k - 1.

Definition round_pos (n d : positive) : Q :=
  let e := binade n d - 52 in
  let '(n', d') := scale (Z.pos n) (Z.pos d) e in
  let m := round_half_even n' d' in
  if 0 <=? e then inject_Z (m * 2 ^ e) else Qred (Qmake m (Z.to_pos (2 ^ (- e)))).

(** Round-to-nearest-even to 53 significant bits: the value a binary64
    operation returns for the exact result [q] (normal range). *)
Definition round53 (q : Q) : Q :=
  match Qnum q with
  | Z0 => 0%Q
  | Z.pos n => round_pos n (Qden q)
  | Z.neg n => Qopp (round_pos n (Qden q))
  end.

(** The largest [float64] is below [2 ^ 1024]: an exact result that
    rounds to [2 ^ 1024] or beyond is an infinity. *)
Definition of_exact (q : Q) : float64 :=
  let r := round53 q in
  if Qle_bool (inject_Z (2 ^ 1024)) (Qabs r) then Inf (negb (Qle_bool 0 r)) else Fin r.

(** [float(z)] *)
Definition of_int (z : Z) : float64 := Fin (round53 (inject_Z z)).

(** Python's [a / b] on two [int]s: the correctly rounded quotient
    ([b] is never zero where the program divides). *)
Definition int_truediv (a b : Z) : Q := round53 (Qdiv (inject_Z a) (inject_Z b)).

(** [x * y] on two finite floats. *)
Definition mul (x y : Q) : Q := round53 (Qmult x y).

(** [x == y], [x < y]: comparisons with not-a-number are false. *)
Definition eqb (x y : float64) : bool :=
  match x, y with
  | Fin p, Fin q => Qeq_bool p q
  | Inf a, Inf b => Bool.eqb a b
  | _, _ => false
  end.

Definition ltb (x y : float64) : bool :=
  match x, y with
  | NaN, _ | _, NaN => false
  | Fin p, Fin q => negb (Qle_bool q p)
  | Inf a, Inf b => a && negb b
  | Inf a, Fin _ => a
  | Fin _, Inf b => negb b
  end.

(** The order a sort uses: that of the reals extended with the
    infinities, and not-a-number below everything (a descending sort
    with [na_position="last"] puts it at the end). *)
Definition sort_le (x y : float64) : bool :=
  match x, y with
  | NaN, _ => true
  | _, NaN => false
  | Fin p, Fin q => Qle_bool p q
  | Inf a, Inf b => a || negb b
  | Inf a, Fin _ => a
  | Fin _, Inf b => negb b
  end.

(** Truncation toward zero. *)
Definition truncate (q : Q) : Z := Z.quot (Qnum q) (Z.pos (Qden q)).

Definition is_finite (x : float64) : bool :=
  match x with Fin _ => true | _ => false end.

(** The C cast behind numpy's [float64 -> int64] conversion of a finite
    value; out of range it yields the x86-64 "integer indefinite"
    value. *)
Definition to_int64 (x : float64) : Z :=
  match x with
  | Fin q => let t := truncate q in if Int64.in_range t then t else Int64.min_int
  | _ => Int64.min_int
  end.

End Float.

(** ** Text *)

Module Text.

Local Open Scope N_scope.

Definition code (c : ascii) : N := N_of_ascii c.

Definition is_lower (c : ascii) : bool := (97 <=? code c) && (code c <=? 122).
Definition is_upper (c : ascii) : bool := (65 <=? code c) && (code c <=? 90).
Definition is_digit (c : ascii) : bool := (48 <=? code c) && (code c <=? 57).
(** C's [isspace]: space, and tab to carriage return. *)
Definition is_space (c : ascii) : bool :=
  (code c =? 32) || ((9 <=? code c) && (code c <=? 13)).

(** C's [toupper] on one byte. *)
Definition upper_ascii (c : ascii) : ascii :=
  if is_lower c then ascii_of_N (code c - 32) else c.

(** *** Characters

    A Python [str] is a sequence of code points; it is written here as
    the bytes of its UTF-8 form, which is how SQLite hands it over and
    which orders as the code points do.  A [string] that is not
    well-formed UTF-8 stands for no [str]. *)

(** The decoder, byte by byte: [need] bytes of the character begun
    are still to come, [acc] holds its bits so far, and [least] is
    the least code point a sequence of its length may encode. *)
Fixpoint decode_from (s : string) (need : nat) (acc least : N) : option (list N) :=
  match s with
  | EmptyString => match need with O => Some [] | S _ => None end
  | String b s' =>
      let c := code b in
      match need with
      | O =>
          if c <? 128 then cons c <$> decode_from s' 0 0 0
          else if (194 <=? c) && (c <=? 223) then decode_from s' 1 (c - 192) 128
          else if (224 <=? c) && (c <=? 239) then decode_from s' 2 (c - 224) 2048
          else if (240 <=? c) && (c <=? 244) then decode_from s' 3 (c - 240) 65536
          else None
      | S n =>
          if (128 <=? c) && (c <=? 191) then
            let acc' := acc * 64 + (c - 128) in
            match n with
            | O =>
                if (least <=? acc') && (acc' <=? 1114111)
                   && negb ((55296 <=? acc') && (acc' <=? 57343))
                then cons acc' <$> decode_from s' 0 0 0
                else None
            | S _ => decode_from s' n acc' least
            end
          else None
      end
  end.

Definition decode (s : string) : option (list N) := decode_from s 0 0 0.

Definition encode_char (c : N) : string :=
  if c <? 128 then String (ascii_of_N c) EmptyString
  else if c <? 2048 then
    String (ascii_of_N (192 + c / 64)) (String (ascii_of_N (128 + c mod 64)) EmptyString)
  else if c <? 65536 then
    String (ascii_of_N (224 + c / 4096))
      (String (ascii_of_N (128 + c / 64 mod 64))
         (String (ascii_of_N (128 + c mod 64)) EmptyString))
  else
    String (ascii_of_N (240 + c / 262144))
      (String (ascii_of_N (128 + c / 4096 mod 64))
         (String (ascii_of_N (128 + c / 64 mod 64))
            (String (ascii_of_N (128 + c mod 64)) EmptyString))).

Definition encode (l : list N) : string :=
  foldr (λ c s, String.append (encode_char c) s) EmptyString l.

(** *** The upper-case forms of Unicode 14.0, the table of CPython 3.11

    [simple_upper] holds the characters whose upper-case form is one
    other character, as runs [(first, last, step, target)]: the
    upper-case forms of [first], [first + step], ... up to [last] are
    [target], [target + step], ...  [special_upper] holds the
    characters whose upper-case form is more than one character.  Any
    other character is its own upper-case form. *)
Definition simple_upper : list (N * N * N * N) := [
  (97, 122, 1, 65); (181, 181, 1, 924); (224, 246, 1, 192);
  (248, 254, 1, 216); (255, 255, 1, 376); (257, 303, 2, 256);
  (305, 305, 1, 73); (307, 311, 2, 306); (314, 328, 2, 313);
  (331, 375, 2, 330); (378, 382, 2, 377); (383, 383, 1, 83);
  (384, 384, 1, 579); (387, 389, 2, 386); (392, 392, 1, 391);
  (396, 396, 1, 395); (402, 402, 1, 401); (405, 405, 1, 502);
  (409, 409, 1, 408); (410, 410, 1, 573); (414, 414, 1, 544);
  (417, 421, 2, 416); (424, 424, 1, 423); (429, 429, 1, 428);
  (432, 432, 1, 431); (436, 438, 2, 435); (441, 441, 1, 440);
  (445, 445, 1, 444); (447, 447, 1, 503); (453, 453, 1, 452);
  (454, 454, 1, 452); (456, 456, 1, 455); (457, 457, 1, 455);
  (459, 459, 1, 458); (460, 460, 1, 458); (462, 476, 2, 461);
  (477, 477, 1, 398); (479, 495, 2, 478); (498, 498, 1, 497);
  (499, 499, 1, 497); (501, 501, 1, 500); (505, 543, 2, 504);
  (547, 563, 2, 546); (572, 572, 1, 571); (575, 576, 1, 11390);
  (578, 578, 1, 577); (583, 591, 2, 582); (592, 592, 1, 11375);
  (593, 593, 1, 11373); (594, 594, 1, 11376); (595, 595, 1, 385);
  (596, 596, 1, 390); (598, 599, 1, 393); (601, 601, 1, 399);
  (603, 603, 1, 400); (604, 604, 1, 42923); (608, 608, 1, 403);
  (609, 609, 1, 42924); (611, 611, 1, 404); (613, 613, 1, 42893);
  (614, 614, 1, 42922); (616, 616, 1, 407); (617, 617, 1, 406);
  (618, 618, 1, 42926); (619, 619, 1, 11362); (620, 620, 1, 42925);
  (623, 623, 1, 412); (625, 625, 1, 11374); (626, 626, 1, 413);
  (629, 629, 1, 415); (637, 637, 1, 11364); (640, 640, 1, 422);
  (642, 642, 1, 42949); (643, 643, 1, 425); (647, 647, 1, 42929);
  (648, 648, 1, 430); (649, 649, 1, 580); (650, 651, 1, 433);
  (652, 652, 1, 581); (658, 658, 1, 439); (669, 669, 1, 42930);
  (670, 670, 1, 42928); (837, 837, 1, 921); (881, 883, 2, 880);
  (887, 887, 1, 886); (891, 893, 1, 1021); (940, 940, 1, 902);
  (941, 943, 1, 904); (945, 961, 1, 913); (962, 962, 1, 931);
  (963, 971, 1, 931); (972, 972, 1, 908); (973, 974, 1, 910);
  (976, 976, 1, 914); (977, 977, 1, 920); (981, 981, 1, 934);
  (982, 982, 1, 928); (983, 983, 1, 975); (985, 1007, 2, 984);
  (1008, 1008, 1, 922); (1009, 1009, 1, 929); (1010, 1010, 1, 1017);
  (1011, 1011, 1, 895); (1013, 1013, 1, 917); (1016, 1016, 1, 1015);
  (1019, 1019, 1, 1018); (1072, 1103, 1, 1040); (1104, 1119, 1, 1024);
  (1121, 1153, 2, 1120); (1163, 1215, 2, 1162); (1218, 1230, 2, 1217);
  (1231, 1231, 1, 1216); (1233, 1327, 2, 1232); (1377, 1414, 1, 1329);
  (4304, 4346, 1, 7312); (4349, 4351, 1, 7357); (5112, 5117, 1, 5104);
  (7296, 7296, 1, 1042); (7297, 7297, 1, 1044); (7298, 7298, 1, 1054);
  (7299, 7300, 1, 1057); (7301, 7301, 1, 1058); (7302, 7302, 1, 1066);
  (7303, 7303, 1, 1122); (7304, 7304, 1, 42570); (7545, 7545, 1, 42877);
  (7549, 7549, 1, 11363); (7566, 7566, 1, 42950); (7681, 7829, 2, 7680);
  (7835, 7835, 1, 7776); (7841, 7935, 2, 7840); (7936, 7943, 1, 7944);
  (7952, 7957, 1, 7960); (7968, 7975, 1, 7976); (7984, 7991, 1, 7992);
  (8000, 8005, 1, 8008); (8017, 8023, 2, 8025); (8032, 8039, 1, 8040);
  (8048, 8049, 1, 8122); (8050, 8053, 1, 8136); (8054, 8055, 1, 8154);
  (8056, 8057, 1, 8184); (8058, 8059, 1, 8170); (8060, 8061, 1, 8186);
  (8112, 8113, 1, 8120); (8126, 8126, 1, 921); (8144, 8145, 1, 8152);
  (8160, 8161, 1, 8168); (8165, 8165, 1, 8172); (8526, 8526, 1, 8498);
  (8560, 8575, 1, 8544); (8580, 8580, 1, 8579); (9424, 9449, 1, 9398);
  (11312, 11359, 1, 11264); (11361, 11361, 1, 11360); (11365, 11365, 1, 570);
  (11366, 11366, 1, 574); (11368, 11372, 2, 11367); (11379, 11379, 1, 11378);
  (11382, 11382, 1, 11381); (11393, 11491, 2, 11392);
  (11500, 11502, 2, 11499); (11507, 11507, 1, 11506); (11520, 11557, 1, 4256);
  (11559, 11559, 1, 4295); (11565, 11565, 1, 4301); (42561, 42605, 2, 42560);
  (42625, 42651, 2, 42624); (42787, 42799, 2, 42786);
  (42803, 42863, 2, 42802); (42874, 42876, 2, 42873);
  (42879, 42887, 2, 42878); (42892, 42892, 1, 42891);
  (42897, 42899, 2, 42896); (42900, 42900, 1, 42948);
  (42903, 42921, 2, 42902); (42933, 42947, 2, 42932);
  (42952, 42954, 2, 42951); (42961, 42961, 1, 42960);
  (42967, 42969, 2, 42966); (42998, 42998, 1, 42997);
  (43859, 43859, 1, 42931); (43888, 43967, 1, 5024); (65345, 65370, 1, 65313);
  (66600, 66639, 1, 66560); (66776, 66811, 1, 66736);
  (66967, 67003, 2, 66928); (66968, 66976, 2, 66929);
  (66980, 66992, 2, 66941); (66996, 67000, 2, 66957);
  (67004, 67004, 1, 66965); (68800, 68850, 1, 68736);
  (71872, 71903, 1, 71840); (93792, 93823, 1, 93760);
  (125218, 125251, 1, 125184)
].

Definition special_upper : list (N * list N) := [
  (223, [83; 83]); (329, [700; 78]); (496, [74; 780]); (912, [921; 776; 769]);
  (944, [933; 776; 769]); (1415, [1333; 1362]); (7830, [72; 817]);
  (7831, [84; 776]); (7832, [87; 778]); (7833, [89; 778]); (7834, [65; 702]);
  (8016, [933; 787]); (8018, [933; 787; 768]); (8020, [933; 787; 769]);
  (8022, [933; 787; 834]); (8064, [7944; 921]); (8065, [7945; 921]);
  (8066, [7946; 921]); (8067, [7947; 921]); (8068, [7948; 921]);
  (8069, [7949; 921]); (8070, [7950; 921]); (8071, [7951; 921]);
  (8072, [7944; 921]); (8073, [7945; 921]); (8074, [7946; 921]);
  (8075, [7947; 921]); (8076, [7948; 921]); (8077, [7949; 921]);
  (8078, [7950; 921]); (8079, [7951; 921]); (8080, [7976; 921]);
  (8081, [7977; 921]); (8082, [7978; 921]); (8083, [7979; 921]);
  (8084, [7980; 921]); (8085, [7981; 921]); (8086, [7982; 921]);
  (8087, [7983; 921]); (8088, [7976; 921]); (8089, [7977; 921]);
  (8090, [7978; 921]); (8091, [7979; 921]); (8092, [7980; 921]);
  (8093, [7981; 921]); (8094, [7982; 921]); (8095, [7983; 921]);
  (8096, [8040; 921]); (8097, [8041; 921]); (8098, [8042; 921]);
  (8099, [8043; 921]); (8100, [8044; 921]); (8101, [8045; 921]);
  (8102, [8046; 921]); (8103, [8047; 921]); (8104, [8040; 921]);
  (8105, [8041; 921]); (8106, [8042; 921]); (8107, [8043; 921]);
  (8108, [8044; 921]); (8109, [8045; 921]); (8110, [8046; 921]);
  (8111, [8047; 921]); (8114, [8122; 921]); (8115, [913; 921]);
  (8116, [902; 921]); (8118, [913; 834]); (8119, [913; 834; 921]);
  (8124, [913; 921]); (8130, [8138; 921]); (8131, [919; 921]);
  (8132, [905; 921]); (8134, [919; 834]); (8135, [919; 834; 921]);
  (8140, [919; 921]); (8146, [921; 776; 768]); (8147, [921; 776; 769]);
  (8150, [921; 834]); (8151, [921; 776; 834]); (8162, [933; 776; 768]);
  (8163, [933; 776; 769]); (8164, [929; 787]); (8166, [933; 834]);
  (8167, [933; 776; 834]); (8178, [8186; 921]); (8179, [937; 921]);
  (8180, [911; 921]); (8182, [937; 834]); (8183, [937; 834; 921]);
  (8188, [937; 921]); (64256, [70; 70]); (64257, [70; 73]); (64258, [70; 76]);
  (64259, [70; 70; 73]); (64260, [70; 70; 76]); (64261, [83; 84]);
  (64262, [83; 84]); (64275, [1348; 1350]); (64276, [1348; 1333]);
  (64277, [1348; 1339]); (64278, [1358; 1350]); (64279, [1348; 1341])
].

Definition run (r : N * N * N * N) : list (N * list N) :=
  let '(first, last, step, target) := r in
  (λ i, (first + N.of_nat i * step, [target + N.of_nat i * step]))
    <$> seq 0 (S (N.to_nat ((last - first) / step))).

Definition upper_table : list (N * list N) :=
  Eval vm_compute in special_upper ++ (simple_upper ≫= run).

Fixpoint lookup_code (c : N) (table : list (N * list N)) : option (list N) :=
  match table with
  | [] => None
  | (c', u) :: table' => if c =? c' then Some u else lookup_code c table'
  end.

(** The upper-case form of one character. *)
Definition to_upper (c : N) : list N := default [c] (lookup_code c upper_table).

(** [str.upper()] *)
Definition upper (s : string) : string :=
  match decode s with
  | Some cs => encode (cs ≫= to_upper)
  | None => s
  end.

(** Two characters that are the same letter in the same or in another
    case: they are equal, or one is the upper-case form of the other. *)
Definition same_up_to_case (c d : N) : Prop :=
  c = d ∨ to_upper c = [d] ∨ to_upper d = [c].

(** Two identifiers that differ only in letter case. *)
Definition differ_only_in_case (s t : string) : Prop :=
  ∃ cs ct, decode s = Some cs ∧ decode t = Some ct ∧ Forall2 same_up_to_case cs ct.

End Text.

(** ** The numeric parser behind [pd.to_numeric]

    pandas hands every string of an object column to a C routine that
    skips surrounding white space and reads an optional sign, digits with
    an optional fraction, and an optional exponent; a literal with
    neither fraction nor exponent is an integer.  A string the routine
    rejects is then matched, ignoring case, against the spellings of
    infinity. *)

Module Parse.

Import Text.

Definition digit_value (c : ascii) : Z := Z.of_N (code c - 48).

Fixpoint skip_spaces (s : string) : string :=
  match s with
  | String c s' => if is_space c then skip_spaces s' else s
  | EmptyString => s
  end.

(** A run of digits: its value, its length and what follows it. *)
Fixpoint digits (s : string) (acc : Z) (n : nat) : Z * nat * string :=
  match s with
  | String c s' =>
      if is_digit c then digits s' (10 * acc + digit_value c) (S n) else (acc, n, s)
  | EmptyString => (acc, n, s)
  end.

Definition sign (s : string) : bool * string :=
  match s with
  | String "-" s' => (true, s')
  | String "+" s' => (false, s')
  | _ => (false, s)
  end.

Definition fraction (s : string) : Z * nat * string * bool :=
  match s with
  | String "." s' => (digits s' 0 0%nat, true)
  | _ => (0, 0%nat, s, false)
  end.

(** An exponent without digits is no exponent: the [e] is left unread. *)
Definition exponent (s : string) : Z * string * bool :=
  match s with
  | String c s' =>
      if (code c =? 69)%N || (code c =? 101)%N then
        let '(neg, s1) := sign s' in
        let '(e, n, s2) := digits s1 0 0%nat in
        if (n =? 0)%nat then (0, s, false)
        else (if neg then - e else e, s2, true)
      else (0, s, false)
  | EmptyString => (0, s, false)
  end.

Definition pow10 (e : Z) : Q :=
  if 0 <=? e then inject_Z (10 ^ e) else Qinv (inject_Z (10 ^ (- e))).

(** The decimal literal of [s]: the [float64] it is read as, an
    infinity when it is too large for one, and its value as an integer
    when it is an integer literal; [None] when [s] is not a number. *)
Definition xstrtod (s : string) : option (float64 * option Z) :=
  let '(neg, s1) := sign (skip_spaces s) in
  let '(ip, ni, s2) := digits s1 0 0%nat in
  let '(fp, nf, s3, dot) := fraction s2 in
  if (ni + nf =? 0)%nat then None else
  let '(e, s4, sci) := exponent s3 in
  let v := Qmult (Qmake (ip * 10 ^ Z.of_nat nf + fp) (Z.to_pos (10 ^ Z.of_nat nf))) (pow10 e) in
  match skip_spaces s4 with
  | EmptyString =>
      Some (Float.of_exact (if neg then Qopp v else v),
            if negb dot && negb sci then Some (if neg then - ip else ip) else None)
  | _ => None
  end.

(** C's [toupper] on every byte, for [strcasecmp]. *)
Fixpoint toupper (s : string) : string :=
  match s with
  | EmptyString => EmptyString
  | String c s' => String (upper_ascii c) (toupper s')
  end.

Definition infinity_word (s : string) : option bool :=
  let u := toupper s in
  if (String.eqb u "INF" || String.eqb u "+INF"
      || String.eqb u "INFINITY" || String.eqb u "+INFINITY")%string then Some false
  else if (String.eqb u "-INF" || String.eqb u "-INFINITY")%string then Some true
  else None.

End Parse.

(** ** Columns and their conversions *)

(** What a cell of the store holds.  (SQLite keeps an [INTEGER] in 64
    signed bits and turns a not-a-number [REAL] into [NULL].) *)
Inductive cell : Type :=
  | Null
  | Integer (z : Z)
  | Real (x : float64)
  | Text (s : string).

Inductive scalar : Type :=
  | IntVal (z : Z)
  | FloatVal (x : float64).

(** A numeric column has one dtype for all of its cells. *)
Inductive column : Type :=
  | Int64Col (l : list Z)
  | UInt64Col (l : list Z)
  | Float64Col (l : list float64).

Inductive exn : Type :=
  | IntCastingNaNError.

Inductive result (A : Type) : Type :=
  | Ok (a : A)
  | Raise (e : exn).
Arguments Ok {A} a.
Arguments Raise {A} e.

Definition bind {A B : Type} (r : result A) (k : A → result B) : result B :=
  match r with
  | Ok a => k a
  | Raise e => Raise e
  end.

Notation "x <- r ;; k" := (bind r (λ x, k))
  (at level 100, r at next level, right associativity).

(** ** What the libraries decide

    Two routines are not the program's own, and what they do is not the
    same wherever the program runs: [str.upper()] goes by the table of
    letters of the interpreter (or of Arrow, for the strings pandas
    keeps there), and [pd.to_numeric] reads a text by a routine that
    versions of pandas do not share.  The functions of the program
    take the two as they come.  [read_number] gives, for a text that is
    a number, the [float64] it is read as and, for an integer literal,
    its value. *)
Class CaseMap : Type := { str_upper : string → string }.

Class NumericReader : Type := { read_number : string → option (float64 * option Z) }.

Module Column.

(** The reader of pandas 3: a literal, read as the [float64] nearest
    to it, or else a spelling of infinity. *)
Definition floatify (s : string) : option (float64 * option Z) :=
  match Parse.xstrtod s with
  | Some r => Some r
  | None => (λ neg, (Inf neg, None)) <$> Parse.infinity_word s
  end.

Section Reader.

Context {reader : NumericReader}.

(** [errors="coerce"]: what cannot be parsed becomes not-a-number, and
    so does the empty text.  An integer literal stays an integer when
    it lies between the least [int64] and the greatest [uint64]; any
    other number is the float it was read as. *)
Definition coerce (c : cell) : scalar :=
  match c with
  | Null => FloatVal NaN
  | Integer z => IntVal z
  | Real x => FloatVal x
  | Text EmptyString => FloatVal NaN
  | Text s =>
      match read_number s with
      | Some (x, Some z) =>
          if (Int64.min_int <=? z) && (z <=? UInt64.max_int) then IntVal z
          else FloatVal x
      | Some (x, None) => FloatVal x
      | None => FloatVal NaN
      end
  end.

Definition as_int (v : scalar) : option Z :=
  match v with IntVal z => Some z | FloatVal _ => None end.

Definition as_float (v : scalar) : float64 :=
  match v with IntVal z => Float.of_int z | FloatVal x => x end.

(** [pd.to_numeric(col, errors="coerce")]: the column is [float64] as
    soon as a cell is a float, is missing or cannot be read; a column
    of integers is [int64], or [uint64] when one of them is beyond
    [int64] and none is negative, and [float64] when it has both. *)
Definition to_numeric (cells : list cell) : column :=
  let vs := coerce <$> cells in
  match mapM as_int vs with
  | Some zs =>
      if forallb (λ z, z <=? Int64.max_int) zs then Int64Col zs
      else if forallb (λ z, 0 <=? z) zs then UInt64Col zs
      else Float64Col (as_float <$> vs)
  | None => Float64Col (as_float <$> vs)
  end.

End Reader.

(** [col.fillna(v)] *)
Definition fillna (v : Q) (col : column) : column :=
  match col with
  | Float64Col l => Float64Col ((λ x, match x with NaN => Fin v | _ => x end) <$> l)
  | _ => col
  end.

(** [col.astype("int64")]: a float column is truncated toward zero,
    and the conversion raises when a value is not finite; a [uint64]
    wraps around. *)
Definition astype_int64 (col : column) : result (list Z) :=
  match col with
  | Int64Col l => Ok l
  | UInt64Col l => Ok (Int64.wrap <$> l)
  | Float64Col l =>
      if forallb Float.is_finite l then Ok (Float.to_int64 <$> l)
      else Raise IntCastingNaNError
  end.

End Column.

(** The two routines as CPython 3.11 and pandas 3 have them.  A
    statement that names no other is about these; the examples are
    evaluated with them. *)
#[global] Instance unicode_upper : CaseMap := {| str_upper := Text.upper |}.

#[global] Instance pandas_reader : NumericReader := {| read_number := Column.floatify |}.

(** ** [load_table] *)

(** A row as the query returns it, and a row of the loaded frame with
    its columns [username], [damage] and [name]. *)
Record raw_row : Type := RawRow { raw_username : string; raw_damage : cell }.
Record row : Type := Row { username : string; damage : Z; name : string }.

(** The [username] column is text, which [astype(str)] leaves as it is. *)
Definition load_table {case : CaseMap} {reader : NumericReader}
    (table : list raw_row) : result (list row) :=
  ds <- Column.astype_int64 (Column.fillna 0 (Column.to_numeric (raw_damage <$> table))) ;;
  Ok (zip_with (λ r d, {| username := raw_username r; damage := d;
                          name := str_upper (raw_username r) |}) table ds).

(** ** [aggregate] *)

(** The sums of a group-by on [name]; an [int64] sum wraps around. *)
Definition group_sum (df : list row) : gmap string Z :=
  foldl (λ m r, <[name r := Int64.add (default 0 (m !! name r)) (damage r)]> m) ∅ df.

(** Python's order on strings, here by character code. *)
Definition str_le (s t : string) : Prop := String.leb s t = true.
#[global] Instance str_le_dec : RelDecision str_le.
Proof. intros s t. unfold str_le. apply _. Defined.

Definition name_le (x y : string * Z) : Prop := str_le x.1 y.1.
#[global] Instance name_le_dec : RelDecision name_le.
Proof. intros x y. unfold name_le. apply _. Defined.

(** [df.groupby("name", as_index=False)["damage"].sum()]: one row per
    group, the groups in the order of their keys. *)
Definition aggregate (df : list row) : list (string * Z) :=
  merge_sort name_le (map_to_list (group_sum df)).

(** ** [compute_comparison] *)

Inductive trend : Type := Up | Down | Same | New.

#[global] Instance trend_eq_dec : EqDecision trend.
Proof. solve_decision. Defined.

Record comparison : Type := Comparison {
  c_name : string;
  prev_damage : Z;
  last_damage : Z;
  pct_change : float64;
  change : trend
}.

(** The float literals of the program. *)
Definition hundred : Q := 100.
Definition huge : Q := inject_Z (10 ^ 18).

Definition pct_row (pv ls : Z) : float64 :=
  if 0 <? pv then Fin (Float.mul (Float.int_truediv (ls - pv) pv) hundred)
  else if (pv =? 0) && (0 <? ls) then Inf false
  else Fin 0.

Definition label_row (pct : float64) : trend :=
  if Float.eqb pct (Inf false) then New
  else if Float.ltb (Fin 0) pct then Up
  else if Float.ltb pct (Fin 0) then Down
  else Same.

(** One side of [pd.merge(a, b, on="name", how="outer")]: a key the side
    lacks holds not-a-number, and a column that holds one is [float64]
    throughout. *)
Definition join_column (keys : list string) (side : gmap string Z) : column :=
  match mapM (λ k, side !! k) keys with
  | Some zs => Int64Col zs
  | None => Float64Col ((λ k, from_option Float.of_int NaN (side !! k)) <$> keys)
  end.

(** The keys of an outer merge: those of either frame, once each, in
    order. *)
Definition merge_keys (a b : list (string * Z)) : list string :=
  merge_sort str_le (remove_dups (a.*1 ++ b.*1)).

Definition make_comparison (k : string) (pv ls : Z) : comparison :=
  let pct := pct_row pv ls in
  {| c_name := k; prev_damage := pv; last_damage := ls;
     pct_change := pct; change := label_row pct |}.

(** [s.replace(np.inf, 1e18)] on one value of the key column. *)
Definition sort_key (r : comparison) : float64 :=
  match pct_change r with
  | Inf false => Fin huge
  | x => x
  end.

(** [sort_values(ascending=False)] with the default [kind]: numpy
    promises a sorted arrangement of the rows and nothing about rows
    with equal keys, so the sort is left to any procedure that
    delivers that much. *)
Class ArgSort : Type := {
  sort_desc : ∀ {A : Type}, (A → float64) → list A → list A;
  sort_desc_perm : ∀ {A : Type} (key : A → float64) (l : list A),
    sort_desc key l ≡ₚ l;
  sort_desc_sorted : ∀ {A : Type} (key : A → float64) (l : list A),
    Sorted (λ x y, Float.sort_le (key y) (key x) = true) (sort_desc key l)
}.

Section Comparator.

Context {sorter : ArgSort}.

Definition compute_comparison (prev_df last_df : list row) : result (list comparison) :=
  let a := aggregate prev_df in
  let b := aggregate last_df in
  let keys := merge_keys a b in
  prev <- Column.astype_int64 (Column.fillna 0 (join_column keys (list_to_map a))) ;;
  last <- Column.astype_int64 (Column.fillna 0 (join_column keys (list_to_map b))) ;;
  let merged := zip_with (λ k pl, make_comparison k pl.1 pl.2) keys (zip prev last) in
  Ok (sort_desc sort_key merged).

End Comparator.

(** ** Top-N selection in [main] *)

(** [df.head(n)]: the first [n] rows, or all but the last [- n] for a
    negative [n]. *)
Definition head {A : Type} (n : Z) (df : list A) : list A :=
  if n <? 0 then take (length df - Z.to_nat (- n)) df else take (Z.to_nat n) df.

(** [df.head(top_n) if top_n > 0 else df] *)
Definition top_rows {A : Type} (top_n : Z) (df : list A) : list A :=
  if 0 <? top_n then head top_n df else df.

(** ** A sorting procedure

    A descending sort done the way pandas does it (reverse, sort
    ascending, reverse) on top of a merge sort.  It is one instance of
    [ArgSort]; the examples below are evaluated with it. *)

Section MergeSortDesc.

Context {A : Type} (key : A → float64).

Definition key_asc (x y : A) : Prop := Float.sort_le (key x) (key y) = true.

#[global] Instance key_asc_dec : RelDecision key_asc.
Proof. intros x y. unfold key_asc. apply _. Defined.

#[global] Instance key_asc_total : Total key_asc.
Proof.
  intros x y. unfold key_asc.
  destruct (key x) as [| [] | p], (key y) as [| [] | q]; simpl; auto.
  rewrite !Qle_bool_iff. destruct (Qlt_le_dec q p); auto using Qlt_le_weak.
Qed.

Definition merge_sort_desc (l : list A) : list A :=
  reverse (merge_sort key_asc (reverse l)).

End MergeSortDesc.

#[global, refine] Instance merge_argsort : ArgSort := {| sort_desc := @merge_sort_desc |}.
Proof.
  - intros A key l. unfold merge_sort_desc.
    by rewrite reverse_Permutation, merge_sort_Permutation, reverse_Permutation.
  - intros A key l. unfold merge_sort_desc.
    apply (Sorted_reverse (key_asc key)), (Sorted_merge_sort (key_asc key)).
Defined.

(** ** Notions the properties are stated with *)

(** The rows of a frame that carry the canonical name [k], and the sum of
    their damage as an integer without bounds. *)
Definition group_rows (k : string) (df : list row) : list row :=
  filter (λ r, name r = k) df.

Definition sum_damage (rs : list row) : Z :=
  foldr (λ r acc, damage r + acc) 0 rs.

(** Whether a side of the merge has every key, and the damage the side
    shows for a key once [fillna(0)] and [astype("int64")] are done: 0
    for a key it lacks, its own sum for a key it has, taken through a
    [float64] when the column held a not-a-number. *)
Definition all_present (keys : list string) (side : gmap string Z) : bool :=
  forallb (λ k, bool_decide (is_Some (side !! k))) keys.

Definition joined (keys : list string) (side : gmap string Z) (k : string) : Z :=
  match side !! k with
  | None => 0
  | Some v => if all_present keys side then v else Float.to_int64 (Float.of_int v)
  end.

(** The rows of the merged frame before they are sorted. *)
Definition merged_rows (prev_df last_df : list row) : list comparison :=
  let keys := merge_keys (aggregate prev_df) (aggregate last_df) in
  (λ k, make_comparison k (joined keys (group_sum prev_df) k)
                          (joined keys (group_sum last_df) k)) <$> keys.

(** The total a snapshot holds for a name: the damage beside the name
    in its aggregated frame, and 0 when the name is not there. *)
Definition total_of (df : list row) (k : string) : Z :=
  default 0 ((list_to_map (aggregate df) : gmap string Z) !! k).

(** The change from [prev] to [last] in percent, as a rational. *)
Definition exact_pct (prev last : Z) : Q :=
  (inject_Z (last - prev) / inject_Z prev * 100)%Q.

(** [x] stands ahead of [y] in [l]. *)
Definition ahead {A : Type} (l : list A) (x y : A) : Prop :=
  ∃ i j : nat, l !! i = Some x ∧ l !! j = Some y ∧ (i < j)%nat.

(** The order in which [sort_values] leaves the rows: by key,
    descending. *)
Definition key_desc (x y : comparison) : Prop :=
  Float.sort_le (sort_key y) (sort_key x) = true.

(** [n / d / 2 ^ k] is at least 1. *)
Definition scaled_ge_1 (n d k : Z) : Prop :=
  (Float.scale n d k).2 ≤ (Float.scale n d k).1.

(** ** Formatting *)

Module Format.

(** The decimal digits of a natural number. *)
Definition digits_of (n : Z) : string :=
  NilZero.string_of_uint (N.to_uint (Z.to_N n)).

(** [q >= 0] with two decimals, the last one rounded to nearest, ties
    to even, as [format] does with the exact value of a float. *)
Definition fixed2 (q : Q) : string :=
  let c := Float.round_half_even (Qnum q * 100) (Z.pos (Qden q)) in
  digits_of (c / 100) ++ "." ++ (if c mod 100 <? 10 then "0" else "")
    ++ digits_of (c mod 100).

(** [f"{v:+.2f}"] when [plus], [f"{v:.2f}"] otherwise. *)
Definition f2 (plus : bool) (v : float64) : string :=
  match v with
  | NaN => (if plus then "+" else "") ++ "nan"
  | Inf neg => (if neg then "-" else if plus then "+" else "") ++ "inf"
  | Fin q => (if Qle_bool 0 q then (if plus then "+" else "") else "-") ++ fixed2 (Qabs q)
  end.

End Format.

Definition fmt_pct (v : float64) : string :=
  if Float.eqb v (Inf false) then "∞" else Format.f2 true v ++ "%".

(** ** The rows of a stored table *)

(** A stored row with the three columns the program reads, and the rows
    its queries return. *)
Record stored_row : Type :=
  StoredRow { s_username : string; s_damage : cell; s_rounds : option string }.

(** [SELECT username, damage FROM table] *)
Definition damage_query (table : list stored_row) : list raw_row :=
  (λ s, RawRow (s_username s) (s_damage s)) <$> table.

(** [pd.merge(left, right, on=key, how="left")]: the rows of [left] in
    their order, each once for every row of [right] with its key, in
    the order of [right], and once with nothing when there is none. *)
Definition merge_left {L R : Type} (key : L → string)
    (left : list L) (right : list (string * R)) : list (L * option R) :=
  left ≫= (λ l, match filter (λ r, r.1 = key l) right with
                 | [] => [(l, None)]
                 | ms => (λ r, (l, Some r.2)) <$> ms
                 end).

(** Python's [a / b] on two [int]s, with its error. *)
Inductive division : Type :=
  | Quotient (q : Q)
  | ZeroDivisionError.

Definition py_truediv (a b : Z) : division :=
  if b =? 0 then ZeroDivisionError else Quotient (Float.int_truediv a b).

(** numpy's [a / b] on two [int64]: both are converted to [float64]
    first. *)
Definition np_truediv (a b : Z) : Q :=
  Float.round53 (Float.round53 (inject_Z a) / Float.round53 (inject_Z b)).

(** ** [get_record_tables] and the tables [main] selects *)

(** A row of [sqlite_master]. *)
Record schema_entry : Type := SchemaEntry { entry_type : string; entry_name : string }.

Definition is_record_table (e : schema_entry) : Prop :=
  entry_type e = "table"%string ∧ entry_name e ≠ "sqlite_sequence"%string.

#[global] Instance is_record_table_dec (e : schema_entry) : Decision (is_record_table e).
Proof. unfold is_record_table. apply _. Defined.

(** [... WHERE type='table' AND name != 'sqlite_sequence' ORDER BY name],
    the names compared byte by byte. *)
Definition get_record_tables (master : list schema_entry) : list string :=
  merge_sort str_le (entry_name <$> filter is_record_table master).

(** The same query of [dashboard_streamlit.py], which ends in
    [ORDER BY name DESC]. *)
Definition get_record_tables_desc (master : list schema_entry) : list string :=
  merge_sort (flip str_le) (entry_name <$> filter is_record_table master).

(** [l[i]] on a Python list; [None] stands for the [IndexError]. *)
Definition py_index {A : Type} (l : list A) (i : Z) : option A :=
  let n := Z.of_nat (length l) in
  if (0 <=? i) && (i <? n) then l !! Z.to_nat i
  else if (- n <=? i) && (i <? 0) then l !! Z.to_nat (n + i)
  else None.

(** The option a [st.selectbox] shows before the user touches it; the
    widget refuses an index outside the options. *)
Definition selectbox {A : Type} (options : list A) (index : Z) : option A :=
  if (0 <=? index) && (index <? Z.of_nat (length options))
  then options !! Z.to_nat index else None.

Module Main.

(** [tables[-1]] and [tables[-2] if len(tables) >= 2 else tables[-1]] *)
Definition default_last (tables : list string) : option string :=
  py_index tables (-1).

Definition default_prev (tables : list string) : option string :=
  if 2 <=? Z.of_nat (length tables) then py_index tables (-2) else py_index tables (-1).

(** The two select boxes of the side bar, with their [index]. *)
Definition sel_last (tables : list string) : option string :=
  selectbox tables (Z.of_nat (length tables) - 1).

Definition sel_prev (tables : list string) : option string :=
  selectbox tables (Z.max 0 (Z.of_nat (length tables) - 2)).

(** [last_df["damage"].sum()], an [int64] sum. *)
Definition total (last_df : list row) : Z :=
  foldl (λ acc r, Int64.add acc (damage r)) 0 last_df.

(** [aggregate(last_df).sort_values("damage", ascending=False)]; the
    integer keys are ordered as the rationals they are. *)
Definition damage_key (x : string * Z) : float64 := Fin (inject_Z x.2).

Definition agg_last `{ArgSort} (last_df : list row) : list (string * Z) :=
  sort_desc damage_key (aggregate last_df).

(** [total // len(agg_last) if len(agg_last) > 0 else 0] *)
Definition avg_damage `{ArgSort} (last_df : list row) : Z :=
  let n := Z.of_nat (length (agg_last last_df)) in
  if 0 <? n then total last_df / n else 0.

(** [agg_last.iloc[0]['name'] if len(agg_last) > 0 else 'N/A'] *)
Definition top_player `{ArgSort} (last_df : list row) : string :=
  match agg_last last_df with
  | x :: _ => x.1
  | [] => "N/A"
  end.

(** The three counters of the summary line:
    [(comp["change"] == "up").sum()] and its two siblings. *)
Definition count_change (t : trend) (comp : list comparison) : nat :=
  length (filter (λ r, change r = t) comp).

Definition increased (comp : list comparison) : nat := count_change Up comp.
Definition decreased (comp : list comparison) : nat := count_change Down comp.
Definition new_players (comp : list comparison) : nat := count_change New comp.

(** [agg_last["damage"] / total * 100.0 if total > 0 else 0.0], for one
    row. *)
Definition share (d tot : Z) : float64 :=
  if 0 <? tot then Fin (Float.mul (np_truediv d tot) hundred) else Fin 0.

(** The participation table with its three columns, then the table
    that is shown: cut to the top rows, the share formatted, and the
    rounds of the stored rows joined on the canonical name. *)
Record share_row : Type :=
  ShareRow { p_name : string; p_damage : Z; p_pct : float64 }.

Definition participation `{ArgSort} (last_df : list row) : list share_row :=
  (λ x, ShareRow x.1 x.2 (share x.2 (total last_df))) <$> agg_last last_df.

Record display_row : Type :=
  DisplayRow { d_name : string; d_damage : Z; d_pct : string; d_rounds : string }.

(** [SELECT username, rounds], [fillna('N/A')], and the [name] column. *)
Definition rounds_data `{CaseMap} (table : list stored_row) : list (string * string) :=
  (λ s, (str_upper (s_username s), default "N/A"%string (s_rounds s))) <$> table.

Definition display `{ArgSort} `{CaseMap} (table : list stored_row) (last_df : list row)
    (top_n : Z) : list display_row :=
  let shown := top_rows top_n (participation last_df) in
  (λ lr : share_row * option string,
     DisplayRow (p_name lr.1) (p_damage lr.1)
                (Format.f2 false (p_pct lr.1) ++ "%")
                (default "N/A"%string lr.2))
    <$> merge_left p_name shown (rounds_data table).

(** The comparison as it is shown: the percentage formatted and an
    icon for the label. *)
Definition icon_map (t : trend) : string :=
  match t with
  | Up => "🔼"
  | Down => "🔽"
  | New => "🆕"
  | Same => "⏺"
  end.

Record comp_row : Type := CompRow {
  tipo : string;
  jugador : string;
  prev_shown : Z;
  last_shown : Z;
  cambio : string
}.

Definition comp_display_show (comp : list comparison) (top_n : Z) : list comp_row :=
  top_rows top_n
    ((λ r, CompRow (icon_map (change r)) (c_name r) (prev_damage r) (last_damage r)
                   (fmt_pct (pct_change r))) <$> comp).

(** [comp[comp["change"] == "up"].nlargest(10, "pct_change")] and
    [comp[comp["change"] == "down"].nsmallest(10, "pct_change")]: the
    ten first rows in descending, respectively ascending, order of the
    percentage. *)
Definition opposite (x : float64) : float64 :=
  match x with
  | NaN => NaN
  | Inf neg => Inf (negb neg)
  | Fin q => Fin (- q)
  end.

Definition top_up `{ArgSort} (comp : list comparison) : list comparison :=
  head 10 (sort_desc pct_change (filter (λ r, change r = Up) comp)).

Definition top_down `{ArgSort} (comp : list comparison) : list comparison :=
  head 10 (sort_desc (λ r, opposite (pct_change r)) (filter (λ r, change r = Down) comp)).

(** The stored rows with [rounds == '21/21'] once a missing [rounds] is
    filled with ['N/A']. *)
Definition active_players (table : list stored_row) : list stored_row :=
  filter (λ s, default "N/A"%string (s_rounds s) = "21/21"%string) table.

(** The expression [(total_active / len(agg_last)) * 100] that [main]
    evaluates for a non-empty [active_players], as a function of its
    two operands.  (The statements before it, which sort, format and
    add up the damage column as the store holds it, are not part of
    it.) *)
Definition active_participation (total_active n_players : Z) : division :=
  match py_truediv total_active n_players with
  | Quotient q => Quotient (Float.mul q hundred)
  | ZeroDivisionError => ZeroDivisionError
  end.

End Main.

(** The damages of an aggregated frame, added up without bounds. *)
Definition sum_totals (agg : list (string * Z)) : Z :=
  foldr (λ x acc, x.2 + acc) 0 agg.

(** * Properties *)

(** ** The sort order *)

Lemma sort_le_trans (x y z : float64) :
  Float.sort_le x y = true → Float.sort_le y z = true → Float.sort_le x z = true.
Proof.
  destruct x as [| [] | p], y as [| [] | q], z as [| [] | r]; simpl; try done.
  rewrite !Qle_bool_iff. apply Qle_trans.
Qed.

Lemma key_desc_trans : Transitive key_desc.
Proof. intros x y z Hxy Hyz. unfold key_desc in *. by eapply sort_le_trans. Qed.

(** ** Canonical names *)






(** The upper-case forms of some identifiers; a character may have an
    upper-case form of more than one character. *)
Example upper_literals :
  Text.upper "foo" = "FOO"%string ∧
  Text.upper "Player_7" = "PLAYER_7"%string ∧
  Text.upper "josé" = "JOSÉ"%string ∧
  Text.upper "JOSÉ" = "JOSÉ"%string ∧
  Text.upper "straße" = "STRASSE"%string ∧
  Text.upper "ǆ" = "Ǆ"%string ∧
  Text.upper "ﬁn" = "FIN"%string.
Proof. by vm_compute. Qed.

Example differ_only_in_case_jose : Text.differ_only_in_case "josé" "JOSÉ".
Proof.
  exists [106; 111; 115; 233]%N, [74; 79; 83; 201]%N.
  split_and!; [by vm_compute | by vm_compute |].
  repeat constructor; right; left; by vm_compute.
Qed.

(** ** Sums per group *)

Lemma wrap_add_l (x y : Z) : Int64.wrap (Int64.wrap x + y) = Int64.wrap (x + y).
Proof.
  unfold Int64.wrap. f_equal.
  replace ((x + 2 ^ 63) mod 2 ^ 64 - 2 ^ 63 + y + 2 ^ 63)
    with ((x + 2 ^ 63) mod 2 ^ 64 + y) by lia.
  rewrite Zplus_mod_idemp_l. f_equal. lia.
Qed.

Lemma wrap_small (z : Z) : Int64.in_range z = true → Int64.wrap z = z.
Proof.
  unfold Int64.in_range, Int64.wrap, Int64.min_int, Int64.max_int.
  intros [?%Z.leb_le ?%Z.leb_le]%andb_true_iff.
  rewrite Z.mod_small; lia.
Qed.

Lemma sum_damage_perm (l1 l2 : list row) : l1 ≡ₚ l2 → sum_damage l1 = sum_damage l2.
Proof. induction 1; simpl; lia. Qed.

Lemma group_rows_perm (k : string) (l1 l2 : list row) :
  l1 ≡ₚ l2 → group_rows k l1 ≡ₚ group_rows k l2.
Proof. intros H. unfold group_rows. by rewrite H. Qed.

Lemma group_rows_nil_iff (k : string) (df : list row) :
  group_rows k df = [] ↔ k ∉ name <$> df.
Proof.
  unfold group_rows. rewrite list_elem_of_fmap. split.
  - intros Hnil (r & -> & Hr).
    assert (r ∈ filter (λ r', name r' = name r) df) as Hin
      by (by apply list_elem_of_filter).
    rewrite Hnil in Hin. by apply not_elem_of_nil in Hin.
  - intros Hk. destruct (filter _ df) as [| r g] eqn:E; [done |].
    assert (r ∈ filter (λ r', name r' = k) df) as [? ?]%list_elem_of_filter
      by (rewrite E; left).
    destruct Hk. by exists r.
Qed.

(** The step of the group-by, and what a run of steps leaves under one
    key. *)
Lemma group_fold_lookup (df : list row) (m : gmap string Z) (k : string) :
  foldl (λ m r, <[name r := Int64.add (default 0 (m !! name r)) (damage r)]> m) m df !! k
  = match group_rows k df with
    | [] => m !! k
    | g => Some (Int64.wrap (default 0 (m !! k) + sum_damage g))
    end.
Proof.
  revert m. induction df as [| r df IH]; intros m; [done |].
  simpl. rewrite IH. unfold group_rows. rewrite filter_cons.
  destruct (decide (name r = k)) as [<- | Hne].
  - rewrite lookup_insert_eq. simpl. unfold Int64.add.
    destruct (filter _ df) as [| r' g]; simpl.
    + do 2 f_equal. lia.
    + f_equal. rewrite wrap_add_l. f_equal. lia.
  - by rewrite lookup_insert_ne.
Qed.

Lemma group_sum_lookup (df : list row) (k : string) :
  group_sum df !! k
  = if decide (k ∈ name <$> df)
    then Some (Int64.wrap (sum_damage (group_rows k df))) else None.
Proof.
  unfold group_sum. rewrite group_fold_lookup, lookup_empty.
  destruct (decide (k ∈ name <$> df)) as [Hin | Hout].
  - destruct (group_rows k df) eqn:E; [| done].
    by apply group_rows_nil_iff in E.
  - apply group_rows_nil_iff in Hout. by rewrite Hout.
Qed.

Lemma group_sum_dom (df : list row) (k : string) :
  k ∈ dom (group_sum df) ↔ k ∈ name <$> df.
Proof.
  rewrite elem_of_dom, group_sum_lookup.
  case_decide; split; try done; by intros [? ?].
Qed.

Lemma group_sum_perm (l1 l2 : list row) : l1 ≡ₚ l2 → group_sum l1 = group_sum l2.
Proof.
  intros H. apply map_eq. intros k. rewrite !group_sum_lookup.
  rewrite (sum_damage_perm _ _ (group_rows_perm k _ _ H)).
  destruct (decide (k ∈ name <$> l1)) as [Hin | Hout];
    destruct (decide (k ∈ name <$> l2)) as [Hin' | Hout']; try done.
  - destruct Hout'. by rewrite <- H.
  - destruct Hout. by rewrite H.
Qed.

(** ** The aggregated frame *)

Lemma aggregate_perm_map (df : list row) : aggregate df ≡ₚ map_to_list (group_sum df).
Proof. apply merge_sort_Permutation. Qed.

Lemma aggregate_elem_of (df : list row) (k : string) (v : Z) :
  (k, v) ∈ aggregate df ↔ group_sum df !! k = Some v.
Proof. by rewrite aggregate_perm_map, elem_of_map_to_list. Qed.

Lemma aggregate_NoDup (df : list row) : NoDup (aggregate df).*1.
Proof. rewrite aggregate_perm_map. apply NoDup_fst_map_to_list. Qed.

Lemma aggregate_to_map (df : list row) : list_to_map (aggregate df) = group_sum df.
Proof.
  rewrite <- (list_to_map_to_list (group_sum df)).
  apply list_to_map_proper; [apply aggregate_NoDup | apply aggregate_perm_map].
Qed.

Lemma aggregate_keys (df : list row) (k : string) :
  k ∈ (aggregate df).*1 ↔ k ∈ name <$> df.
Proof.
  rewrite <- group_sum_dom, elem_of_dom, list_elem_of_fmap. split.
  - intros ([k' v] & -> & Hin). exists v. by apply aggregate_elem_of.
  - intros [v Hv]. exists (k, v). split; [done |]. by apply aggregate_elem_of.
Qed.

(** ** The merged frame *)

Lemma all_present_Forall (keys : list string) (side : gmap string Z) :
  all_present keys side = true ↔ Forall (λ k, is_Some (side !! k)) keys.
Proof.
  unfold all_present. rewrite forallb_forall, Forall_forall.
  setoid_rewrite bool_decide_eq_true. by setoid_rewrite list_elem_of_In.
Qed.

Lemma join_column_cast (keys : list string) (side : gmap string Z) :
  Column.astype_int64 (Column.fillna 0 (join_column keys side))
  = Ok (joined keys side <$> keys).
Proof.
  unfold join_column. destruct (mapM _ keys) as [zs |] eqn:E.
  - simpl. f_equal.
    assert (all_present keys side = true) as Hall.
    { apply all_present_Forall, mapM_is_Some. by rewrite E. }
    apply mapM_Some in E. unfold joined. rewrite Hall. clear Hall.
    induction E as [| k z ks zs Hk _ IH]; [done |].
    rewrite fmap_cons, Hk. f_equal. exact IH.
  - assert (all_present keys side = false) as Hall.
    { destruct (all_present keys side) eqn:Hall; [| done].
      apply all_present_Forall, (mapM_is_Some (λ k, side !! k)) in Hall.
      rewrite E in Hall. by destruct Hall. }
    cbv beta iota delta [Column.fillna Column.astype_int64].
    rewrite <- !list_fmap_compose.
    replace (forallb Float.is_finite _) with true.
    + f_equal. apply list_fmap_ext.
      intros _ k _. unfold joined. simpl. rewrite Hall.
      by destruct (side !! k).
    + symmetry. apply forallb_forall. intros x [k [<- _]]%in_map_iff.
      simpl. by destruct (side !! k).
Qed.

Lemma zip_with_fmap_keys {K B C D : Type}
    (f : K → B * C → D) (g : K → B) (h : K → C) (keys : list K) :
  zip_with f keys (zip (g <$> keys) (h <$> keys)) = (λ k, f k (g k, h k)) <$> keys.
Proof. induction keys as [| k keys IH]; [done |]. rewrite !fmap_cons. simpl. by f_equal. Qed.

Section ComparatorFacts.

Context {sorter : ArgSort}.

(** [compute_comparison] never raises: it returns the merged rows
    in sorted order. *)
Lemma compute_comparison_eq (prev_df last_df : list row) :
  compute_comparison prev_df last_df
  = Ok (sort_desc sort_key (merged_rows prev_df last_df)).
Proof.
  unfold compute_comparison. rewrite !aggregate_to_map, !join_column_cast.
  simpl. by rewrite zip_with_fmap_keys.
Qed.

Lemma compute_comparison_perm (prev_df last_df : list row) (rows : list comparison) :
  compute_comparison prev_df last_df = Ok rows →
  rows ≡ₚ merged_rows prev_df last_df.
Proof.
  rewrite compute_comparison_eq. intros [= <-]. apply sort_desc_perm.
Qed.

End ComparatorFacts.

Lemma merge_keys_perm (a b : list (string * Z)) :
  merge_keys a b ≡ₚ remove_dups (a.*1 ++ b.*1).
Proof. apply merge_sort_Permutation. Qed.

Lemma merge_keys_elem_of (a b : list (string * Z)) (k : string) :
  k ∈ merge_keys a b ↔ k ∈ a.*1 ∨ k ∈ b.*1.
Proof. by rewrite merge_keys_perm, elem_of_remove_dups, elem_of_app. Qed.

Lemma merge_keys_NoDup (a b : list (string * Z)) : NoDup (merge_keys a b).
Proof. rewrite merge_keys_perm. apply NoDup_remove_dups. Qed.

Lemma merged_rows_names (prev_df last_df : list row) :
  c_name <$> merged_rows prev_df last_df
  = merge_keys (aggregate prev_df) (aggregate last_df).
Proof.
  unfold merged_rows. rewrite <- list_fmap_compose. simpl. apply list_fmap_id.
Qed.

Lemma merged_rows_elem_of (prev_df last_df : list row) (r : comparison) :
  r ∈ merged_rows prev_df last_df ↔
  let keys := merge_keys (aggregate prev_df) (aggregate last_df) in
  c_name r ∈ keys ∧
  r = make_comparison (c_name r) (joined keys (group_sum prev_df) (c_name r))
                                 (joined keys (group_sum last_df) (c_name r)).
Proof.
  unfold merged_rows. rewrite list_elem_of_fmap. simpl. split.
  - intros (k & -> & Hk). by simpl.
  - intros [Hk Hr]. by exists (c_name r).
Qed.

(** ** Rows of the comparison *)

Lemma pct_row_cases (pv ls : Z) :
  pct_row pv ls = Inf false ∨ ∃ q, pct_row pv ls = Fin q.
Proof. unfold pct_row. repeat case_match; eauto. Qed.

Lemma label_row_fin (q : Q) :
  label_row (Fin q)
  = if negb (Qle_bool q 0) then Up else if negb (Qle_bool 0 q) then Down else Same.
Proof. done. Qed.

Section Rows.

Context {sorter : ArgSort}.

(** Every row that comes out carries the percentage of its own two
    damages and the label of its own percentage. *)
Lemma comparison_row_fields (prev_df last_df : list row) (rows : list comparison) r :
  compute_comparison prev_df last_df = Ok rows → r ∈ rows →
  pct_change r = pct_row (prev_damage r) (last_damage r) ∧
  change r = label_row (pct_change r).
Proof.
  intros Hrows Hr. rewrite (compute_comparison_perm _ _ _ Hrows) in Hr.
  apply merged_rows_elem_of in Hr as [_ ->]. done.
Qed.

(** C2: in every row of the comparison the label is a function of the
    percentage, and each label stands for one condition on it: [New]
    for positive infinity, [Up] for a finite value above 0, [Down] for
    a value below 0, [Same] for a value equal to 0.  A row has one
    label, so exactly one of the four conditions holds of it. *)
Theorem trend_classification (prev_df last_df : list row) :
  ∃ rows, compute_comparison prev_df last_df = Ok rows ∧
  ∀ r, r ∈ rows →
    change r = label_row (pct_change r) ∧
    (change r = New ↔ pct_change r = Inf false) ∧
    (change r = Up ↔
       Float.is_finite (pct_change r) = true ∧ Float.ltb (Fin 0) (pct_change r) = true) ∧
    (change r = Down ↔ Float.ltb (pct_change r) (Fin 0) = true) ∧
    (change r = Same ↔ Float.eqb (pct_change r) (Fin 0) = true).
Proof.
  eexists. split; [apply compute_comparison_eq |]. intros r Hr.
  destruct (comparison_row_fields _ _ _ r (compute_comparison_eq _ _) Hr) as [Hpct ->].
  split; [done |].
  destruct (pct_row_cases (prev_damage r) (last_damage r)) as [E | [q E]];
    rewrite <- Hpct in E; rewrite E; clear Hpct E.
  - simpl. repeat split; try done; intros [? ?]; done.
  - rewrite label_row_fin. simpl.
    destruct (Qle_bool q 0) eqn:Hle, (Qle_bool 0 q) eqn:Hge; simpl.
    + assert (Qeq_bool q 0 = true) as ->.
      { apply Qeq_bool_iff, Qle_antisym; by apply Qle_bool_iff. }
      repeat split; try done; intros [? ?]; done.
    + assert (Qeq_bool q 0 = false) as ->.
      { apply not_true_iff_false. intros Heq%Qeq_bool_iff.
        apply not_true_iff_false in Hge. apply Hge, Qle_bool_iff.
        rewrite Heq. apply Qle_refl. }
      repeat split; try done; intros [? ?]; done.
    + assert (Qeq_bool q 0 = false) as ->.
      { apply not_true_iff_false. intros Heq%Qeq_bool_iff.
        apply not_true_iff_false in Hle. apply Hle, Qle_bool_iff.
        rewrite Heq. apply Qle_refl. }
      repeat split; try done; intros [? ?]; done.
    + exfalso. apply not_true_iff_false in Hle, Hge.
      rewrite Qle_bool_iff in Hle, Hge.
      destruct (Qlt_le_dec 0 q) as [?%Qlt_le_weak | ?]; tauto.
Qed.

(** C10: a row of the comparison whose previous damage is 0 and whose
    current damage is below 0 has percentage 0 and the label [Same];
    it is neither [New] nor [Down]. *)
Theorem negative_current_is_same (prev_df last_df : list row) :
  ∃ rows, compute_comparison prev_df last_df = Ok rows ∧
  ∀ r, r ∈ rows → prev_damage r = 0 → last_damage r < 0 →
    pct_change r = Fin 0 ∧ change r = Same ∧ change r ≠ New ∧ change r ≠ Down.
Proof.
  eexists. split; [apply compute_comparison_eq |]. intros r Hr Hprev Hlast.
  destruct (comparison_row_fields _ _ _ r (compute_comparison_eq _ _) Hr) as [Hpct Hlab].
  assert (pct_change r = Fin 0) as E.
  { rewrite Hpct, Hprev. unfold pct_row. simpl.
    by rewrite (proj2 (Z.ltb_ge _ _) (Z.lt_le_incl _ _ Hlast)). }
  rewrite Hlab, E. done.
Qed.

End Rows.

Lemma negative_current_is_same_witness :
  compute_comparison (sorter := merge_argsort) [] [Row "a" (-5) "A"]
  = Ok [Comparison "A" 0 (-5) (Fin 0) Same] ∧
  change (Comparison "A" 0 (-5) (Fin 0) Same) = Same.
Proof.
  destruct (negative_current_is_same (sorter := merge_argsort) [] [Row "a" (-5) "A"])
    as (rows & Hrows & H).
  split; [by vm_compute |].
  assert (rows = [Comparison "A" 0 (-5) (Fin 0) Same]) as ->
    by (vm_compute in Hrows; congruence).
  apply (H (Comparison "A" 0 (-5) (Fin 0) Same)); [left | done | done].
Defined.

(** The literal cases of the percentage and its label. *)
Example pct_row_literals :
  pct_row 100 150 = Fin 50 ∧ label_row (Fin 50) = Up ∧
  pct_row 100 50 = Fin (-50) ∧ label_row (Fin (-50)) = Down ∧
  pct_row 0 80 = Inf false ∧ label_row (Inf false) = New ∧
  pct_row 0 0 = Fin 0 ∧ label_row (Fin 0) = Same ∧
  pct_row 100 100 = Fin 0.
Proof. by vm_compute. Qed.

(** Two snapshots, from the rows of the store to the comparison. *)
Example two_raids :
  load_table [RawRow "A" (Integer 10); RawRow "a" (Integer 5); RawRow "B" (Integer 20)]
    = Ok [Row "A" 10 "A"; Row "a" 5 "A"; Row "B" 20 "B"] ∧
  load_table [RawRow "A" (Integer 30); RawRow "B" (Integer 0); RawRow "C" (Integer 15)]
    = Ok [Row "A" 30 "A"; Row "B" 0 "B"; Row "C" 15 "C"] ∧
  aggregate [Row "A" 10 "A"; Row "a" 5 "A"; Row "B" 20 "B"]
    = [("A"%string, 15); ("B"%string, 20)] ∧
  aggregate [Row "A" 30 "A"; Row "B" 0 "B"; Row "C" 15 "C"]
    = [("A"%string, 30); ("B"%string, 0); ("C"%string, 15)] ∧
  compute_comparison (sorter := merge_argsort)
    [Row "A" 10 "A"; Row "a" 5 "A"; Row "B" 20 "B"]
    [Row "A" 30 "A"; Row "B" 0 "B"; Row "C" 15 "C"]
    = Ok [Comparison "C" 0 15 (Inf false) New;
          Comparison "A" 15 30 (Fin 100) Up;
          Comparison "B" 20 0 (Fin (-100)) Down].
Proof. by vm_compute. Qed.

(** ** The loaded frame *)

Section Loaded.

Context {case : CaseMap} {reader : NumericReader}.

(** The dtype of the converted column: integers when every cell is
    one, floats otherwise. *)
Lemma to_numeric_cases (cells : list cell) :
  (∃ zs, mapM Column.as_int (Column.coerce <$> cells) = Some zs ∧
         (Column.to_numeric cells = Int64Col zs ∨ Column.to_numeric cells = UInt64Col zs)) ∨
  Column.to_numeric cells = Float64Col (Column.as_float ∘ Column.coerce <$> cells).
Proof.
  unfold Column.to_numeric. rewrite <- list_fmap_compose.
  destruct (mapM _ _) as [zs |] eqn:E; [| by right].
  repeat case_match; eauto.
Qed.

Lemma cast_length (cells : list cell) (ds : list Z) :
  Column.astype_int64 (Column.fillna 0 (Column.to_numeric cells)) = Ok ds →
  length ds = length cells.
Proof.
  destruct (to_numeric_cases cells) as [(zs & E & [-> | ->]) | ->];
    cbv beta iota delta [Column.fillna Column.astype_int64].
  - intros [= <-]. apply mapM_Some, Forall2_length in E.
    by rewrite length_fmap in E.
  - intros [= <-]. apply mapM_Some, Forall2_length in E.
    rewrite length_fmap in E. by rewrite length_fmap.
  - case_match; [| done]. intros [= <-]. by rewrite !length_fmap.
Qed.

Lemma integers_no_float (cells : list cell) (zs : list Z) (c : cell) (x : float64) :
  mapM Column.as_int (Column.coerce <$> cells) = Some zs →
  c ∈ cells → Column.coerce c ≠ FloatVal x.
Proof.
  intros E Hc Hx.
  assert (is_Some (mapM Column.as_int (Column.coerce <$> cells))) as Hsome by by rewrite E.
  rewrite mapM_is_Some, Forall_fmap, Forall_forall in Hsome.
  specialize (Hsome c Hc). simpl in Hsome. rewrite Hx in Hsome. by destruct Hsome.
Qed.

(** A cell that [pd.to_numeric] could not read makes its column a float
    column, and comes out of the conversions as 0. *)
Lemma cast_failed_parse (cells : list cell) (ds : list Z) (i : nat) (c : cell) :
  Column.astype_int64 (Column.fillna 0 (Column.to_numeric cells)) = Ok ds →
  cells !! i = Some c → Column.coerce c = FloatVal NaN →
  ds !! i = Some 0.
Proof.
  intros Hds Hc Hnan.
  destruct (to_numeric_cases cells) as [(zs & E & _) | Hfloat].
  - by destruct (integers_no_float cells zs c NaN E (list_elem_of_lookup_2 _ _ _ Hc)).
  - rewrite Hfloat in Hds. cbv beta iota delta [Column.fillna Column.astype_int64] in Hds.
    case_match; [| done]. injection Hds as <-.
    by rewrite !list_lookup_fmap, Hc; simpl; rewrite Hnan.
Qed.

Lemma load_table_inv (table : list raw_row) (df : list row) :
  load_table table = Ok df →
  ∃ ds, Column.astype_int64
          (Column.fillna 0 (Column.to_numeric (raw_damage <$> table))) = Ok ds ∧
        length ds = length table ∧
        df = zip_with (λ r d, {| username := raw_username r; damage := d;
                                 name := str_upper (raw_username r) |}) table ds.
Proof.
  unfold load_table.
  destruct (Column.astype_int64 _) as [ds |] eqn:E; simpl; [| done].
  intros [= <-]. exists ds. split_and!; [done | | done].
  apply cast_length in E. by rewrite length_fmap in E.
Qed.

Lemma load_table_names (table : list raw_row) (df : list row) :
  load_table table = Ok df →
  username <$> df = raw_username <$> table ∧
  ∀ r, r ∈ df → name r = str_upper (username r).
Proof.
  intros (ds & _ & Hlen & ->)%load_table_inv. split.
  - revert ds Hlen. induction table as [| raw table IH]; intros [| d ds] Hlen;
      simplify_eq/=; [done |]. f_equal. by apply IH.
  - intros r (raw & d & -> & _ & _)%elem_of_zip_with. done.
Qed.

Lemma load_table_failed_parse (table : list raw_row) (df : list row) i raw r :
  load_table table = Ok df → table !! i = Some raw → df !! i = Some r →
  Column.coerce (raw_damage raw) = FloatVal NaN →
  damage r = 0.
Proof.
  intros (ds & Hds & _ & ->)%load_table_inv Hraw Hr Hnan.
  apply lookup_zip_with_Some in Hr as (raw' & d & -> & Hraw' & Hd).
  simpl. eapply cast_failed_parse in Hds; [| by rewrite list_lookup_fmap, Hraw | done].
  congruence.
Qed.

Lemma not_finite_is_infinity (cells : list cell) :
  forallb Float.is_finite
    ((λ x, match x with NaN => Fin 0 | _ => x end) ∘ (Column.as_float ∘ Column.coerce)
       <$> cells) = false →
  ∃ c b, c ∈ cells ∧ Column.coerce c = FloatVal (Inf b).
Proof.
  induction cells as [| c cells IH]; [done |]. rewrite fmap_cons. simpl.
  destruct (Column.coerce c) as [z | [| b | q]] eqn:E; simpl.
  - intros (c' & b & ? & ?)%IH. exists c', b. split; [by right | done].
  - intros (c' & b & ? & ?)%IH. exists c', b. split; [by right | done].
  - intros _. exists c, b. split; [by left | done].
  - intros (c' & b & ? & ?)%IH. exists c', b. split; [by right | done].
Qed.

(** [load_table] raises exactly when some damage cell is read as an
    infinity. *)
Lemma load_table_raises_iff (table : list raw_row) :
  load_table table = Raise IntCastingNaNError ↔
  ∃ r b, r ∈ table ∧ Column.coerce (raw_damage r) = FloatVal (Inf b).
Proof.
  unfold load_table.
  destruct (to_numeric_cases (raw_damage <$> table)) as [(zs & E & [-> | ->]) | ->].
  - split; [done |]. intros (r & b & Hr & Hinf).
    by destruct (integers_no_float _ zs (raw_damage r) (Inf b) E (list_elem_of_fmap_2 _ _ _ Hr)).
  - split; [done |]. intros (r & b & Hr & Hinf).
    by destruct (integers_no_float _ zs (raw_damage r) (Inf b) E (list_elem_of_fmap_2 _ _ _ Hr)).
  - cbv beta iota delta [Column.fillna Column.astype_int64].
    rewrite <- (list_fmap_compose (Column.as_float ∘ Column.coerce)).
    destruct (forallb _ _) eqn:F; simpl.
    + split; [done |]. intros (r & b & Hr & Hinf).
      rewrite <- list_fmap_compose, forallb_forall in F.
      specialize (F _ (proj1 (list_elem_of_In _ _) (list_elem_of_fmap_2 _ _ _ Hr))).
      simpl in F. by rewrite Hinf in F.
    + split; [| done]. intros _.
      apply not_finite_is_infinity in F as (c & b & Hc & Hinf).
      apply list_elem_of_fmap in Hc as (r & -> & Hr). by exists r, b.
Qed.

End Loaded.

Section CaseGrouping.

Context {reader : NumericReader}.


End CaseGrouping.


(** C7 at the input where it fails: a damage cell with the text [inf]
    is read as positive infinity, [fillna] leaves it, and the
    conversion to [int64] raises. *)
Theorem load_table_raises_on_infinity :
  Column.coerce (Text "inf") = FloatVal (Inf false) ∧
  load_table [RawRow "x" (Text "inf")] = Raise IntCastingNaNError ∧
  load_table [RawRow "x" (Integer 5); RawRow "y" (Real (Inf false))]
    = Raise IntCastingNaNError.
Proof. by vm_compute. Qed.

(** What does hold of the coercion: a cell that cannot be read as a
    number counts 0, whatever else the table holds, when the table
    loads. *)
Example malformed_damage_counts_zero :
  load_table [RawRow "a" (Text "n/a"); RawRow "a" (Integer 5); RawRow "b" Null;
              RawRow "c" (Text " 3.7e1 "); RawRow "d" (Text "")]
  = Ok [Row "a" 0 "A"; Row "a" 5 "A"; Row "b" 0 "B"; Row "c" 37 "C"; Row "d" 0 "D"].
Proof. by vm_compute. Qed.

(** What the reader written out here makes of some texts: a literal
    beyond the largest [float64] is an infinity, so that its table does
    not load; an integer literal beyond [int64] is kept in a [uint64]
    column, which wraps around in the conversion, unless the column
    also has a negative integer or a cell that is no integer. *)
Example reader_literals :
  load_table [RawRow "x" (Text "1e400")] = Raise IntCastingNaNError ∧
  load_table [RawRow "x" (Text "18446744073709551615");
              RawRow "y" (Text "9007199254740993")]
    = Ok [Row "x" (-1) "X"; Row "y" 9007199254740993 "Y"] ∧
  load_table [RawRow "x" (Text "18446744073709551615"); RawRow "y" (Text "n/a")]
    = Ok [Row "x" (-9223372036854775808) "X"; Row "y" 0 "Y"] ∧
  load_table [RawRow "x" (Text " 12 "); RawRow "y" (Text "-2.5"); RawRow "z" (Text "1e3")]
    = Ok [Row "x" 12 "X"; Row "y" (-2) "Y"; Row "z" 1000 "Z"].
Proof. by vm_compute. Qed.

(** ** Order of the input rows *)

(** C9: two frames that are permutations of each other aggregate to
    the same frame, hence to the same set of [(name, total)] pairs. *)
Theorem aggregate_order_invariant (df1 df2 : list row) :
  df1 ≡ₚ df2 →
  aggregate df1 = aggregate df2 ∧
  ∀ k v, (k, v) ∈ aggregate df1 ↔ (k, v) ∈ aggregate df2.
Proof.
  intros H. assert (aggregate df1 = aggregate df2) as E.
  { unfold aggregate. by rewrite (group_sum_perm _ _ H). }
  split; [done |]. intros k v. by rewrite E.
Qed.

Lemma aggregate_order_invariant_witness :
  aggregate [Row "b" 2 "B"; Row "a" 3 "A"; Row "B" 5 "B"]
  = aggregate [Row "B" 5 "B"; Row "b" 2 "B"; Row "a" 3 "A"].
Proof.
  apply (aggregate_order_invariant
           [Row "b" 2 "B"; Row "a" 3 "A"; Row "B" 5 "B"]
           [Row "B" 5 "B"; Row "b" 2 "B"; Row "a" 3 "A"]).
  symmetry. apply (Permutation_cons_append [Row "b" 2 "B"; Row "a" 3 "A"]).
Defined.

(** ** Top-N selection *)

(** C8: for a non-negative [n], the selection returns the frame itself
    when [n = 0] and when [n] is at least the number of rows, and the
    first [n] rows, in their order, when [0 < n < length df]. *)
Theorem top_rows_boundaries {A : Type} (n : Z) (df : list A) :
  0 ≤ n →
  (n = 0 → top_rows n df = df) ∧
  (Z.of_nat (length df) ≤ n → top_rows n df = df) ∧
  (0 < n < Z.of_nat (length df) →
     top_rows n df = take (Z.to_nat n) df ∧
     length (top_rows n df) = Z.to_nat n ∧
     ∃ rest, df = top_rows n df ++ rest).
Proof.
  intros Hn. unfold top_rows, head. split_and!.
  - by intros ->.
  - intros Hlen. destruct (Z.ltb_spec 0 n); [| done].
    rewrite (proj2 (Z.ltb_ge n 0)) by lia. apply firstn_all2. lia.
  - intros [Hpos Hlt]. rewrite (proj2 (Z.ltb_lt 0 n)), (proj2 (Z.ltb_ge n 0)) by lia.
    split_and!; [done | rewrite length_take; lia |].
    exists (drop (Z.to_nat n) df). by rewrite take_drop.
Qed.

Lemma top_rows_boundaries_witness :
  top_rows 0 [3; 1; 2] = [3; 1; 2] ∧
  top_rows 5 [3; 1; 2] = [3; 1; 2] ∧
  top_rows 2 [3; 1; 2] = [3; 1].
Proof.
  split_and!.
  - exact (proj1 (top_rows_boundaries 0 [3; 1; 2] ltac:(lia)) eq_refl).
  - exact (proj1 (proj2 (top_rows_boundaries 5 [3; 1; 2] ltac:(lia))) ltac:(simpl; lia)).
  - exact (proj1 (proj2 (proj2 (top_rows_boundaries 2 [3; 1; 2] ltac:(lia)))
                    ltac:(simpl; lia))).
Defined.

(** ** Arithmetic of the percentage *)

Example round53_small : Float.round53 (inject_Z 9007199254740991) = inject_Z 9007199254740991.
Proof. vm_compute. reflexivity. Qed.
Example round53_tie_even : Float.round53 (inject_Z 9007199254740993) = inject_Z 9007199254740992.
Proof. vm_compute. reflexivity. Qed.
Example round53_tie_even' : Float.round53 (inject_Z 9007199254740995) = inject_Z 9007199254740996.
Proof. vm_compute. reflexivity. Qed.
Example round53_tenth : Float.round53 (1 # 10) = (3602879701896397 # 36028797018963968)%Q.
Proof. vm_compute. reflexivity. Qed.
Example round53_third : Float.mul (Float.int_truediv 1 3) 100 = (2345624805922133 # 70368744177664)%Q.
Proof. vm_compute. reflexivity. Qed.

Lemma round_pos_self (p : positive) : Float.round_pos p p = 1%Q.
Proof.
  unfold Float.round_pos.
  assert (Float.binade p p = 0) as ->.
  { unfold Float.binade. rewrite Z.sub_diag. unfold Float.scale.
    change (0 <=? 0) with true. cbv iota.
    change (2 ^ 0) with 1. rewrite Z.mul_1_r.
    by rewrite Z.leb_refl. }
  change (0 - 52) with (-52). unfold Float.scale.
  change (0 <=? -52) with false. cbv iota beta.
  change (- -52) with 52.
  assert (Float.round_half_even (Z.pos p * 2 ^ 52) (Z.pos p) = 2 ^ 52) as ->.
  { unfold Float.round_half_even.
    rewrite (Z.mul_comm (Z.pos p)), Z.mod_mul, Z.div_mul by done.
    done. }
  by vm_compute.
Qed.

(** A damage that falls from [pv > 0] to 0 changes by exactly -100. *)
Lemma pct_row_drop_to_zero (pv : Z) : 0 < pv → pct_row pv 0 = Fin (-100).
Proof.
  intros Hpos. unfold pct_row. rewrite (proj2 (Z.ltb_lt 0 pv) Hpos).
  destruct pv as [| p | p]; try lia.
  unfold Float.int_truediv.
  assert (Float.round53 (inject_Z (0 - Z.pos p) / inject_Z (Z.pos p)) = (-1)%Q) as ->.
  { unfold Qdiv, Qinv, Qmult, inject_Z, Float.round53. simpl.
    by rewrite Pos.mul_1_r, round_pos_self. }
  by vm_compute.
Qed.

(** ** Integers that pass through a [float64] *)

Lemma Qred_inject_Z (z : Z) : Qred (inject_Z z) = inject_Z z.
Proof.
  apply Qcanon.Qred_identity. simpl. apply Z.gcd_1_r.
Qed.

Lemma round_pos_int (n : positive) :
  Z.pos n ≤ 2 ^ 53 → Float.round_pos n 1 = inject_Z (Z.pos n).
Proof.
  intros Hn.
  pose proof (Z.log2_spec (Z.pos n) ltac:(done)) as [Hlo Hhi].
  pose proof (Z.log2_nonneg (Z.pos n)) as Hk.
  assert (Z.log2 (Z.pos n) ≤ 53) as Hk53.
  { rewrite <- (Z.log2_pow2 53) by done. by apply Z.log2_le_mono. }
  unfold Float.round_pos.
  assert (Float.binade n 1 = Z.log2 (Z.pos n)) as ->.
  { unfold Float.binade. change (Z.log2 1) with 0. rewrite Z.sub_0_r.
    unfold Float.scale. rewrite (proj2 (Z.leb_le 0 _) Hk), Z.mul_1_l.
    by rewrite (proj2 (Z.leb_le _ _) Hlo). }
  set (k := Z.log2 (Z.pos n)) in *.
  destruct (Z.leb_spec 0 (k - 52)) as [He | He].
  - (* the integer has 53 or 54 bits *)
    unfold Float.scale. rewrite (proj2 (Z.leb_le 0 _) He), Z.mul_1_l.
    destruct (decide (k = 52)) as [-> | Hne].
    + change (52 - 52) with 0. change (2 ^ 0) with 1.
      unfold Float.round_half_even. rewrite Z.mod_1_r, Z.div_1_r. simpl.
      by rewrite Z.mul_1_r.
    + assert (k = 53) as -> by lia.
      assert (Z.pos n = 2 ^ 53) as -> by lia.
      by vm_compute.
  - unfold Float.scale. rewrite (proj2 (Z.leb_gt _ _) He).
    unfold Float.round_half_even. rewrite Z.mod_1_r, Z.div_1_r. simpl.
    rewrite <- Qred_inject_Z. apply Qred_complete.
    unfold Qeq. simpl.
    assert (0 < 2 ^ (- (k - 52))) by (apply Z.pow_pos_nonneg; lia).
    rewrite Z2Pos.id by done. lia.
Qed.

Lemma round53_int (z : Z) : Z.abs z ≤ 2 ^ 53 → Float.round53 (inject_Z z) = inject_Z z.
Proof.
  intros Hz. unfold Float.round53. destruct z as [| n | n]; simpl.
  - done.
  - apply round_pos_int. lia.
  - rewrite round_pos_int by lia. done.
Qed.

(** An integer of at most 53 bits survives the passage unchanged. *)
Lemma to_int64_of_int (z : Z) : Z.abs z ≤ 2 ^ 53 → Float.to_int64 (Float.of_int z) = z.
Proof.
  intros Hz. unfold Float.of_int. rewrite round53_int by done.
  unfold Float.to_int64, Float.truncate. simpl. rewrite Z.quot_1_r.
  assert (Int64.in_range z = true) as ->; [| done].
  unfold Int64.in_range, Int64.min_int, Int64.max_int.
  apply andb_true_iff; split; apply Z.leb_le; lia.
Qed.

Lemma joined_absent keys (side : gmap string Z) k :
  side !! k = None → joined keys side k = 0.
Proof. unfold joined. by intros ->. Qed.

Lemma joined_all_present keys (side : gmap string Z) k v :
  all_present keys side = true → side !! k = Some v → joined keys side k = v.
Proof. unfold joined. by intros -> ->. Qed.

Lemma joined_small keys (side : gmap string Z) k v :
  side !! k = Some v → Z.abs v ≤ 2 ^ 53 → joined keys side k = v.
Proof.
  unfold joined. intros -> Hv. case_match; [done |]. by apply to_int64_of_int.
Qed.

(** ** The outer join *)

Lemma aggregate_lookup_Some (df : list row) (k : string) :
  k ∈ (aggregate df).*1 ↔ is_Some (group_sum df !! k).
Proof. by rewrite aggregate_keys, <- group_sum_dom, elem_of_dom. Qed.

Lemma aggregate_lookup_None (df : list row) (k : string) :
  k ∉ (aggregate df).*1 ↔ group_sum df !! k = None.
Proof. by rewrite aggregate_lookup_Some, eq_None_not_Some. Qed.

(** When one frame is empty the other side of the merge has every key. *)
Lemma all_present_left (df : list row) :
  all_present (merge_keys (aggregate df) (aggregate [])) (group_sum df) = true.
Proof.
  apply all_present_Forall, Forall_forall. intros k [Hk | Hk]%merge_keys_elem_of.
  - by apply aggregate_lookup_Some.
  - by apply aggregate_keys, elem_of_nil in Hk.
Qed.

Lemma all_present_right (df : list row) :
  all_present (merge_keys (aggregate []) (aggregate df)) (group_sum df) = true.
Proof.
  apply all_present_Forall, Forall_forall. intros k [Hk | Hk]%merge_keys_elem_of.
  - by apply aggregate_keys, elem_of_nil in Hk.
  - by apply aggregate_lookup_Some.
Qed.

Section Join.

Context {sorter : ArgSort}.

(** X13: what the comparison does with the keys of the two aggregates:
    it never raises and returns one row for each key of either, with 0
    on a side that lacks the key and the side's own sum on a side that
    has it, as long as that sum is an integer of at most 53 bits or the
    side has every key. *)
Lemma outer_join (prev_df last_df : list row) :
  ∃ rows, compute_comparison prev_df last_df = Ok rows ∧
  (∀ k, k ∈ c_name <$> rows ↔ k ∈ (aggregate prev_df).*1 ∨ k ∈ (aggregate last_df).*1) ∧
  NoDup (c_name <$> rows) ∧
  ∀ r, r ∈ rows →
    (c_name r ∉ (aggregate prev_df).*1 → prev_damage r = 0) ∧
    (c_name r ∉ (aggregate last_df).*1 → last_damage r = 0) ∧
    (∀ v, (c_name r, v) ∈ aggregate prev_df →
       Z.abs v ≤ 2 ^ 53 ∨ (∀ k, k ∈ (aggregate last_df).*1 → k ∈ (aggregate prev_df).*1) →
       prev_damage r = v) ∧
    (∀ v, (c_name r, v) ∈ aggregate last_df →
       Z.abs v ≤ 2 ^ 53 ∨ (∀ k, k ∈ (aggregate prev_df).*1 → k ∈ (aggregate last_df).*1) →
       last_damage r = v).
Proof.
  eexists. split; [apply compute_comparison_eq |].
  pose proof (sort_desc_perm sort_key (merged_rows prev_df last_df)) as Hperm.
  split_and!.
  - intros k. by rewrite Hperm, merged_rows_names, merge_keys_elem_of.
  - rewrite Hperm, merged_rows_names. apply merge_keys_NoDup.
  - intros r Hr. rewrite Hperm in Hr.
    apply merged_rows_elem_of in Hr as [Hk Hr]. simpl in Hr.
    set (keys := merge_keys (aggregate prev_df) (aggregate last_df)) in *.
    assert (prev_damage r = joined keys (group_sum prev_df) (c_name r)) as ->
      by (by rewrite Hr at 1).
    assert (last_damage r = joined keys (group_sum last_df) (c_name r)) as ->
      by (by rewrite Hr at 1).
    split_and!.
    + intros Hout%aggregate_lookup_None. by apply joined_absent.
    + intros Hout%aggregate_lookup_None. by apply joined_absent.
    + intros v Hv%aggregate_elem_of [Hsmall | Hall]; [by apply joined_small |].
      apply joined_all_present; [| done].
      apply all_present_Forall, Forall_forall.
      intros k [Hin | Hin%Hall]%merge_keys_elem_of; by apply aggregate_lookup_Some.
    + intros v Hv%aggregate_elem_of [Hsmall | Hall]; [by apply joined_small |].
      apply joined_all_present; [| done].
      apply all_present_Forall, Forall_forall.
      intros k [Hin%Hall | Hin]%merge_keys_elem_of; by apply aggregate_lookup_Some.
Qed.

(** C3 at an input where it fails: the previous frame sums to
    [2 ^ 53 + 1] for [A], the current frame has only [B]; the merge
    leaves a not-a-number under [A]'s [last_damage] and [B]'s
    [prev_damage], both columns become [float64], and [A]'s previous
    damage comes back from the conversion as [2 ^ 53]. *)
Theorem outer_join_rounds_large_damage :
  aggregate [Row "a" 9007199254740993 "A"] = [("A"%string, 9007199254740993)] ∧
  ∃ rows, compute_comparison [Row "a" 9007199254740993 "A"] [Row "b" 1 "B"] = Ok rows ∧
    (∃ r, r ∈ rows ∧ c_name r = "A"%string) ∧
    ∀ r, r ∈ rows → c_name r = "A"%string → prev_damage r = 9007199254740992.
Proof.
  split; [by vm_compute |].
  eexists. split; [apply compute_comparison_eq |].
  pose proof (sort_desc_perm sort_key
    (merged_rows [Row "a" 9007199254740993 "A"] [Row "b" 1 "B"])) as Hperm.
  split.
  - exists (Comparison "A" 9007199254740992 0 (Fin (-100)) Down).
    split; [| done]. rewrite Hperm.
    assert (merged_rows [Row "a" 9007199254740993 "A"] [Row "b" 1 "B"]
            = [Comparison "A" 9007199254740992 0 (Fin (-100)) Down;
               Comparison "B" 0 1 (Inf false) New]) as -> by by vm_compute.
    left.
  - intros r Hr Hname. rewrite Hperm in Hr.
    assert (merged_rows [Row "a" 9007199254740993 "A"] [Row "b" 1 "B"]
            = [Comparison "A" 9007199254740992 0 (Fin (-100)) Down;
               Comparison "B" 0 1 (Inf false) New]) as E by by vm_compute.
    rewrite E in Hr. apply elem_of_cons in Hr as [-> | Hr]; [done |].
    apply list_elem_of_singleton in Hr as ->. discriminate Hname.
Qed.

(** C1 at an input where it fails: [A] did the damage [2 ^ 53 + 1] in
    both snapshots, for which the rule gives the percentage 0, and the
    current snapshot also has [B].  The merge leaves a not-a-number
    under [B]'s previous damage, that column becomes [float64], [A]'s
    previous damage comes back from the conversion as [2 ^ 53], and the
    percentage of [A] is that of an increase by 1: [100 / 2 ^ 53],
    labelled [Up]. *)
Theorem pct_change_of_rounded_damage :
  aggregate [Row "a" 9007199254740993 "A"] = [("A"%string, 9007199254740993)] ∧
  aggregate [Row "a" 9007199254740993 "A"; Row "b" 1 "B"]
    = [("A"%string, 9007199254740993); ("B"%string, 1)] ∧
  pct_row 9007199254740993 9007199254740993 = Fin 0 ∧
  ∃ rows, compute_comparison [Row "a" 9007199254740993 "A"]
            [Row "a" 9007199254740993 "A"; Row "b" 1 "B"] = Ok rows ∧
    (∃ r, r ∈ rows ∧ c_name r = "A"%string) ∧
    ∀ r, r ∈ rows → c_name r = "A"%string →
      prev_damage r = 9007199254740992 ∧ last_damage r = 9007199254740993 ∧
      pct_change r = Fin (25 # 2251799813685248) ∧ change r = Up.
Proof.
  split_and!; [by vm_compute | by vm_compute | by vm_compute |].
  eexists. split; [apply compute_comparison_eq |].
  pose proof (sort_desc_perm sort_key
    (merged_rows [Row "a" 9007199254740993 "A"]
                 [Row "a" 9007199254740993 "A"; Row "b" 1 "B"])) as Hperm.
  assert (merged_rows [Row "a" 9007199254740993 "A"]
                      [Row "a" 9007199254740993 "A"; Row "b" 1 "B"]
          = [Comparison "A" 9007199254740992 9007199254740993
               (Fin (25 # 2251799813685248)) Up;
             Comparison "B" 0 1 (Inf false) New]) as E by by vm_compute.
  rewrite E in Hperm. split.
  - eexists. split; [rewrite Hperm; left | done].
  - intros r Hr Hname. rewrite Hperm in Hr.
    apply elem_of_cons in Hr as [-> | Hr]; [repeat split; reflexivity |].
    apply list_elem_of_singleton in Hr as ->. discriminate Hname.
Qed.

End Join.

(** ** An empty snapshot *)

Lemma pct_row_from_zero (ls : Z) :
  pct_row 0 ls = if 0 <? ls then Inf false else Fin 0.
Proof. done. Qed.

Section Empty.

Context {sorter : ArgSort}.

(** C5, as the program has it: with an empty previous frame every name
    of the current frame gets one row, with previous damage 0 and its
    own sum as current damage, labelled [New] when that sum is above 0
    and [Same] otherwise; with an empty current frame every name of the
    previous frame gets one row with current damage 0 and, when its
    previous damage is above 0, percentage -100 and label [Down]; with
    both frames empty the result is the empty frame.  No case raises. *)
Theorem empty_snapshot_cases :
  (∀ last_df, ∃ rows, compute_comparison [] last_df = Ok rows ∧
     (∀ k, k ∈ c_name <$> rows ↔ k ∈ name <$> last_df) ∧
     ∀ r, r ∈ rows →
       prev_damage r = 0 ∧
       (c_name r, last_damage r) ∈ aggregate last_df ∧
       (0 < last_damage r → pct_change r = Inf false ∧ change r = New) ∧
       (last_damage r ≤ 0 → pct_change r = Fin 0 ∧ change r = Same)) ∧
  (∀ prev_df, ∃ rows, compute_comparison prev_df [] = Ok rows ∧
     (∀ k, k ∈ c_name <$> rows ↔ k ∈ name <$> prev_df) ∧
     ∀ r, r ∈ rows →
       last_damage r = 0 ∧
       (c_name r, prev_damage r) ∈ aggregate prev_df ∧
       (0 < prev_damage r → pct_change r = Fin (-100) ∧ change r = Down)) ∧
  compute_comparison [] [] = Ok [].
Proof.
  split_and!.
  - intros last_df. eexists. split; [apply compute_comparison_eq |].
    pose proof (sort_desc_perm sort_key (merged_rows [] last_df)) as Hperm.
    split.
    + intros k. rewrite Hperm, merged_rows_names, merge_keys_elem_of, !aggregate_keys.
      split; [by intros [?%elem_of_nil | ?] | by right].
    + intros r Hr. rewrite Hperm in Hr.
      apply merged_rows_elem_of in Hr as [Hk Hr]. simpl in Hr.
      apply merge_keys_elem_of in Hk as [Hk | Hk];
        [by apply aggregate_keys, elem_of_nil in Hk |].
      apply aggregate_lookup_Some in Hk as [v Hv].
      rewrite (joined_absent _ (group_sum []) _ (lookup_empty _)) in Hr.
      rewrite (joined_all_present _ _ _ v (all_present_right last_df) Hv) in Hr.
      rewrite Hr. simpl. split_and!; [done | by apply aggregate_elem_of | |].
      * intros Hpos. by rewrite pct_row_from_zero, (proj2 (Z.ltb_lt 0 v) Hpos).
      * intros Hle. by rewrite pct_row_from_zero, (proj2 (Z.ltb_ge 0 v) Hle).
  - intros prev_df. eexists. split; [apply compute_comparison_eq |].
    pose proof (sort_desc_perm sort_key (merged_rows prev_df [])) as Hperm.
    split.
    + intros k. rewrite Hperm, merged_rows_names, merge_keys_elem_of, !aggregate_keys.
      split; [by intros [? | ?%elem_of_nil] | by left].
    + intros r Hr. rewrite Hperm in Hr.
      apply merged_rows_elem_of in Hr as [Hk Hr]. simpl in Hr.
      apply merge_keys_elem_of in Hk as [Hk | Hk];
        [| by apply aggregate_keys, elem_of_nil in Hk].
      apply aggregate_lookup_Some in Hk as [v Hv].
      rewrite (joined_absent _ (group_sum []) _ (lookup_empty _)) in Hr.
      rewrite (joined_all_present _ _ _ v (all_present_left prev_df) Hv) in Hr.
      rewrite Hr. simpl. split_and!; [done | by apply aggregate_elem_of |].
      intros Hpos. by rewrite (pct_row_drop_to_zero v Hpos).
  - rewrite compute_comparison_eq. f_equal.
    assert (merged_rows [] [] = []) as -> by by vm_compute.
    apply Permutation_nil_r, sort_desc_perm.
Qed.

End Empty.

(** C5 as stated fails: against an empty previous frame a participant
    whose current damage sums to 0 is labelled [Same], not [New]. *)
Lemma empty_previous_not_all_new :
  compute_comparison (sorter := merge_argsort) [] [Row "b" 0 "B"; Row "c" 15 "C"]
  = Ok [Comparison "C" 0 15 (Inf false) New; Comparison "B" 0 0 (Fin 0) Same] ∧
  ¬ (∀ rows r,
       compute_comparison (sorter := merge_argsort) [] [Row "b" 0 "B"; Row "c" 15 "C"]
       = Ok rows →
       r ∈ rows → change r = New).
Proof.
  split; [by vm_compute |]. intros H.
  specialize (H _ (Comparison "B" 0 0 (Fin 0) Same) eq_refl). simpl in H.
  discriminate H. right. left.
Qed.

(** ** The order of the rows *)

Lemma StronglySorted_lookup {A : Type} (R : relation A) (l : list A) i j x y :
  StronglySorted R l → l !! i = Some x → l !! j = Some y → (i < j)%nat → R x y.
Proof.
  intros Hl. revert i j. induction Hl as [| a l Hl IH Ha]; intros i j Hi Hj Hij.
  - by rewrite lookup_nil in Hi.
  - destruct i as [| i], j as [| j]; try lia; simplify_eq/=.
    + eapply Forall_forall; [exact Ha |]. by eapply list_elem_of_lookup_2.
    + eapply IH; [done | done | lia].
Qed.

Section Order.

Context {sorter : ArgSort}.

(** C4, as the program has it: the rows come out in descending order of
    a key that is the stored percentage with positive infinity replaced
    by [1e18]; the stored percentage of a [New] row stays positive
    infinity; all [New] rows have the same key [1e18], so the key does
    not order them among themselves; and a [New] row stands ahead of
    every row whose percentage is finite and below [1e18]. *)
Theorem sorted_with_substituted_sentinel (prev_df last_df : list row) :
  ∃ rows, compute_comparison prev_df last_df = Ok rows ∧
  StronglySorted key_desc rows ∧
  (∀ r, r ∈ rows →
     sort_key r = (if Float.eqb (pct_change r) (Inf false) then Fin huge else pct_change r)) ∧
  (∀ r, r ∈ rows → change r = New → pct_change r = Inf false ∧ sort_key r = Fin huge) ∧
  (∀ rn rf q, rn ∈ rows → rf ∈ rows →
     change rn = New → pct_change rf = Fin q → (q < huge)%Q → ahead rows rn rf).
Proof.
  eexists. split; [apply compute_comparison_eq |].
  set (rows := sort_desc sort_key (merged_rows prev_df last_df)).
  assert (StronglySorted key_desc rows) as Hsorted.
  { apply (@Sorted_StronglySorted _ _ key_desc_trans), sort_desc_sorted. }
  assert (∀ r, r ∈ rows → change r = New → pct_change r = Inf false) as Hnew.
  { intros r Hr Hlab.
    destruct (comparison_row_fields _ _ rows r (compute_comparison_eq _ _) Hr) as [Hpct Hl].
    destruct (pct_row_cases (prev_damage r) (last_damage r)) as [E | [q E]];
      rewrite <- Hpct in E; [done |].
    rewrite Hl, E, label_row_fin in Hlab. by repeat case_match. }
  split_and!; [done | | |].
  - intros r _. unfold sort_key. by destruct (pct_change r) as [| [] |].
  - intros r Hr Hlab. split; [by apply Hnew |].
    unfold sort_key. by rewrite (Hnew r Hr Hlab).
  - intros rn rf q [i Hi]%list_elem_of_lookup [j Hj]%list_elem_of_lookup Hlab Hq Hlt.
    pose proof (Hnew rn (list_elem_of_lookup_2 _ _ _ Hi) Hlab) as Hinf.
    exists i, j. split_and!; [done | done |].
    destruct (Nat.lt_trichotomy i j) as [? | [-> | Hji]]; [done | |].
    + rewrite Hi in Hj. injection Hj as ->. by rewrite Hq in Hinf.
    + pose proof (StronglySorted_lookup _ _ _ _ _ _ Hsorted Hj Hi Hji) as Hle.
      unfold key_desc, sort_key in Hle. rewrite Hinf, Hq in Hle. simpl in Hle.
      apply Qle_bool_iff in Hle. by apply Qle_not_lt in Hle.
Qed.

(** Whatever the sorting procedure, a row that grew by more than
    [1e18] percent comes out ahead of a [New] row. *)
Lemma large_increase_sorts_first :
  compute_comparison [Row "a" 1 "A"] [Row "a" 20000000000000001 "A"; Row "b" 5 "B"]
  = Ok [Comparison "A" 1 20000000000000001 (Fin 2000000000000000000) Up;
        Comparison "B" 0 5 (Inf false) New].
Proof.
  rewrite compute_comparison_eq. f_equal.
  assert (merged_rows [Row "a" 1 "A"] [Row "a" 20000000000000001 "A"; Row "b" 5 "B"]
          = [Comparison "A" 1 20000000000000001 (Fin 2000000000000000000) Up;
             Comparison "B" 0 5 (Inf false) New]) as -> by by vm_compute.
  set (ra := Comparison "A" _ _ _ _). set (rb := Comparison "B" _ _ _ _).
  pose proof (sort_desc_perm sort_key [ra; rb]) as Hperm.
  pose proof (sort_desc_sorted sort_key [ra; rb]) as Hsorted.
  destruct (sort_desc sort_key [ra; rb]) as [| x [| y [| z l]]] eqn:E.
  - by apply Permutation_length in Hperm.
  - by apply Permutation_length in Hperm.
  - symmetry in Hperm.
    apply Permutation_length_2_inv in Hperm as [[= -> ->] | [= -> ->]]; [done |].
    exfalso. apply Sorted_inv in Hsorted as [_ Hhd].
    apply HdRel_inv in Hhd. by vm_compute in Hhd.
  - by apply Permutation_length in Hperm.
Qed.

End Order.

(** C4 as stated fails: the previous damage 1 and the current damage
    [2e16 + 1] give the finite positive percentage [2e18], above the
    [1e18] that stands in for infinity, and the [New] row of [B] comes
    out behind it. *)
Lemma new_row_behind_large_increase :
  compute_comparison (sorter := merge_argsort)
    [Row "a" 1 "A"] [Row "a" 20000000000000001 "A"; Row "b" 5 "B"]
  = Ok [Comparison "A" 1 20000000000000001 (Fin 2000000000000000000) Up;
        Comparison "B" 0 5 (Inf false) New] ∧
  ¬ ahead [Comparison "A" 1 20000000000000001 (Fin 2000000000000000000) Up;
           Comparison "B" 0 5 (Inf false) New]
          (Comparison "B" 0 5 (Inf false) New)
          (Comparison "A" 1 20000000000000001 (Fin 2000000000000000000) Up).
Proof.
  split; [apply large_increase_sorts_first |].
  intros (i & j & Hi & Hj & Hij).
  destruct i as [| [| i]], j as [| [| j]]; simplify_eq/=; lia.
Qed.

(** ** The sign of a rounded value *)

Lemma pow2_ge_1 (k : Z) : 0 ≤ k → 1 ≤ 2 ^ k.
Proof. intros Hk. pose proof (Z.pow_pos_nonneg 2 k ltac:(lia) Hk). lia. Qed.

Lemma scaled_ge_1_mono (n d k k' : Z) :
  0 < n → 0 < d → k' ≤ k → scaled_ge_1 n d k → scaled_ge_1 n d k'.
Proof.
  unfold scaled_ge_1, Float.scale. intros Hn Hd Hk.
  destruct (Z.leb_spec 0 k) as [Hk0 | Hk0], (Z.leb_spec 0 k') as [Hk0' | Hk0']; simpl.
  - intros H. pose proof (Z.pow_le_mono_r 2 k' k ltac:(lia) Hk). nia.
  - intros H. pose proof (pow2_ge_1 k Hk0). pose proof (pow2_ge_1 (- k') ltac:(lia)). nia.
  - lia.
  - intros H. pose proof (Z.pow_le_mono_r 2 (- k) (- k') ltac:(lia) ltac:(lia)). nia.
Qed.

Lemma binade_ge_1 (n d : positive) : scaled_ge_1 (Z.pos n) (Z.pos d) (Float.binade n d).
Proof.
  unfold Float.binade.
  set (k := Z.log2 (Z.pos n) - Z.log2 (Z.pos d)).
  destruct (Float.scale (Z.pos n) (Z.pos d) k) as [n' d'] eqn:E.
  destruct (Z.leb_spec d' n') as [Hle | Hgt].
  - unfold scaled_ge_1. by rewrite E.
  - clear E Hgt n' d'.
    pose proof (Z.log2_spec (Z.pos n) ltac:(done)) as [Hn _].
    pose proof (Z.log2_spec (Z.pos d) ltac:(done)) as [_ Hd].
    pose proof (Z.log2_nonneg (Z.pos n)) as Hln.
    pose proof (Z.log2_nonneg (Z.pos d)) as Hld.
    unfold scaled_ge_1, Float.scale.
    destruct (Z.leb_spec 0 (k - 1)) as [Hk | Hk]; simpl.
    + assert (2 ^ Z.log2 (Z.pos n) = 2 ^ (k - 1) * 2 ^ Z.succ (Z.log2 (Z.pos d))) as E.
      { rewrite <- Z.pow_add_r by lia. f_equal. lia. }
      pose proof (pow2_ge_1 (k - 1) Hk). nia.
    + assert (2 ^ Z.succ (Z.log2 (Z.pos d)) = 2 ^ Z.log2 (Z.pos n) * 2 ^ (- (k - 1))) as E.
      { rewrite <- Z.pow_add_r by lia. f_equal. lia. }
      pose proof (pow2_ge_1 (- (k - 1)) ltac:(lia)). nia.
Qed.

Lemma round_half_even_pos (n d : Z) : 0 < d → d ≤ n → 0 < Float.round_half_even n d.
Proof.
  intros Hd Hn. unfold Float.round_half_even.
  assert (1 ≤ n / d) by (apply Z.div_le_lower_bound; lia).
  repeat case_match; lia.
Qed.

Lemma round_pos_pos (n d : positive) : (0 < Float.round_pos n d)%Q.
Proof.
  unfold Float.round_pos.
  pose proof (scaled_ge_1_mono (Z.pos n) (Z.pos d) (Float.binade n d)
                (Float.binade n d - 52)
                ltac:(done) ltac:(done) ltac:(lia) (binade_ge_1 n d)) as Hge.
  unfold scaled_ge_1 in Hge.
  destruct (Float.scale (Z.pos n) (Z.pos d) (Float.binade n d - 52)) as [n' d'] eqn:E.
  simpl in Hge.
  assert (0 < d') as Hd'.
  { unfold Float.scale in E. destruct (0 <=? Float.binade n d - 52) eqn:He;
      injection E as <- <-; [| done].
    apply Z.leb_le in He. pose proof (pow2_ge_1 _ He). nia. }
  pose proof (round_half_even_pos n' d' Hd' Hge) as Hm.
  destruct (Z.leb_spec 0 (Float.binade n d - 52)) as [He | He].
  - unfold Qlt. simpl. pose proof (pow2_ge_1 _ He). nia.
  - rewrite Qred_correct. unfold Qlt. simpl. lia.
Qed.

Lemma round53_pos (q : Q) : (0 < q)%Q → (0 < Float.round53 q)%Q.
Proof.
  unfold Float.round53, Qlt at 1. simpl. rewrite Z.mul_1_r.
  destruct (Qnum q); try lia. intros _. apply round_pos_pos.
Qed.

Lemma round53_neg (q : Q) : (q < 0)%Q → (Float.round53 q < 0)%Q.
Proof.
  unfold Float.round53, Qlt at 1. simpl. rewrite Z.mul_1_r.
  destruct (Qnum q) as [| n | n]; try lia. intros _.
  pose proof (round_pos_pos n (Qden q)) as H.
  apply Qopp_lt_compat in H. exact H.
Qed.

Lemma round53_zero (q : Q) : (q == 0)%Q → Float.round53 q = 0%Q.
Proof.
  unfold Float.round53, Qeq. simpl. rewrite Z.mul_1_r. by intros ->.
Qed.

(** The percentage of a positive previous damage has the sign of the
    change. *)
Lemma pct_positive_baseline (pv ls : Z) :
  0 < pv →
  ∃ q, pct_row pv ls = Fin q ∧
       (pv < ls → (0 < q)%Q) ∧ (ls < pv → (q < 0)%Q) ∧ (ls = pv → q = 0%Q).
Proof.
  intros Hpv. unfold pct_row. rewrite (proj2 (Z.ltb_lt 0 pv) Hpv).
  eexists. split; [done |].
  unfold Float.mul, Float.int_truediv, hundred.
  set (x := (inject_Z (ls - pv) / inject_Z pv)%Q).
  assert (0 < inject_Z pv)%Q as Hpv' by (unfold Qlt; simpl; lia).
  split_and!.
  - intros Hlt. apply round53_pos.
    apply Qmult_lt_0_compat; [| done]. apply round53_pos.
    apply Qlt_shift_div_l; [done |]. unfold Qlt. simpl. lia.
  - intros Hlt. apply round53_neg.
    assert (Float.round53 x < 0)%Q as Hx.
    { apply round53_neg. apply Qlt_shift_div_r; [done |]. unfold Qlt. simpl. lia. }
    destruct (Float.round53 x) as [a b]. unfold Qlt in *. simpl in *. lia.
  - intros ->.
    assert (Float.round53 x = 0%Q) as ->.
    { apply round53_zero. unfold x. rewrite Z.sub_diag. apply Qmult_0_l. }
    done.
Qed.

(** ** The label in terms of the two damages *)

Lemma label_row_pos (q : Q) : (0 < q)%Q → label_row (Fin q) = Up.
Proof.
  intros Hq. rewrite label_row_fin.
  assert (Qle_bool q 0 = false) as ->; [| done].
  apply not_true_iff_false. intros H%Qle_bool_iff. by apply Qle_not_lt in H.
Qed.

Lemma label_row_neg (q : Q) : (q < 0)%Q → label_row (Fin q) = Down.
Proof.
  intros Hq. rewrite label_row_fin.
  assert (Qle_bool q 0 = true) as -> by (by apply Qle_bool_iff, Qlt_le_weak).
  assert (Qle_bool 0 q = false) as ->; [| done].
  apply not_true_iff_false. intros H%Qle_bool_iff. by apply Qle_not_lt in H.
Qed.

(** What [label_row] makes of [pct_row], read off the two integers. *)
Lemma label_of_damages (pv ls : Z) :
  label_row (pct_row pv ls)
  = if 0 <? pv then (if pv <? ls then Up else if ls <? pv then Down else Same)
    else if (pv =? 0) && (0 <? ls) then New else Same.
Proof.
  destruct (Z.ltb_spec 0 pv) as [Hpv | Hpv].
  - destruct (pct_positive_baseline pv ls Hpv) as (q & -> & Hup & Hdown & Hsame).
    destruct (Z.ltb_spec pv ls) as [Hlt | Hge]; [by apply label_row_pos, Hup |].
    destruct (Z.ltb_spec ls pv) as [Hlt | Hge']; [by apply label_row_neg, Hdown |].
    by rewrite (Hsame ltac:(lia)).
  - unfold pct_row. rewrite (proj2 (Z.ltb_ge 0 pv) Hpv).
    by destruct ((pv =? 0) && (0 <? ls)).
Qed.

Lemma label_cases (pv ls : Z) :
  let l := label_row (pct_row pv ls) in
  (l = New ↔ pv = 0 ∧ 0 < ls) ∧
  (l = Up ↔ 0 < pv ∧ pv < ls) ∧
  (l = Down ↔ 0 < pv ∧ ls < pv) ∧
  (l = Same ↔ (0 < pv ∧ ls = pv) ∨ pv < 0 ∨ (pv = 0 ∧ ls ≤ 0)).
Proof.
  simpl. rewrite label_of_damages.
  destruct (Z.ltb_spec 0 pv) as [Hpv | Hpv].
  - destruct (Z.ltb_spec pv ls) as [Hlt | Hge];
      [| destruct (Z.ltb_spec ls pv) as [Hlt | Hge']];
      split_and!; split; try done; try lia; intros; lia.
  - destruct (Z.eqb_spec pv 0) as [E | E];
      [destruct (Z.ltb_spec 0 ls) as [Hl | Hl] |]; simpl;
      split_and!; split; try done; try lia; intros; lia.
Qed.

Section Labels.

Context {sorter : ArgSort}.

Lemma row_label_cases (prev_df last_df : list row) (r : comparison) :
  r ∈ sort_desc sort_key (merged_rows prev_df last_df) →
  (change r = New ↔ prev_damage r = 0 ∧ 0 < last_damage r) ∧
  (change r = Up ↔ 0 < prev_damage r ∧ prev_damage r < last_damage r) ∧
  (change r = Down ↔ 0 < prev_damage r ∧ last_damage r < prev_damage r) ∧
  (change r = Same ↔
     (0 < prev_damage r ∧ last_damage r = prev_damage r) ∨ prev_damage r < 0
     ∨ (prev_damage r = 0 ∧ last_damage r ≤ 0)).
Proof.
  intros Hr.
  destruct (comparison_row_fields _ _ _ r (compute_comparison_eq _ _) Hr) as [Hpct Hlab].
  rewrite Hlab, Hpct. apply label_cases.
Qed.

(** X1: in every row of the comparison the label says how the two
    damages of the row compare: [New] when the previous damage is 0 and
    the current one is above 0, [Up] when the current damage is above a
    positive previous damage, [Down] when it is below a positive
    previous damage, and [Same] in every other case (equal damages
    over a positive baseline, a negative previous damage, or a previous
    damage of 0 with a current damage of 0 or less). *)
Theorem trend_by_damage (prev_df last_df : list row) :
  ∃ rows, compute_comparison prev_df last_df = Ok rows ∧
  ∀ r, r ∈ rows →
    let prev := prev_damage r in
    let last := last_damage r in
    (change r = New ↔ prev = 0 ∧ 0 < last) ∧
    (change r = Up ↔ 0 < prev ∧ prev < last) ∧
    (change r = Down ↔ 0 < prev ∧ last < prev) ∧
    (change r = Same ↔ (0 < prev ∧ last = prev) ∨ prev < 0 ∨ (prev = 0 ∧ last ≤ 0)).
Proof.
  eexists. split; [apply compute_comparison_eq |]. intros r Hr.
  by apply (row_label_cases prev_df last_df).
Qed.

(** X2: the counters of the summary line count rows by their damages:
    [increased] the rows whose current damage is above a positive
    previous damage, [decreased] those whose current damage is below
    a positive previous damage, [new_players] those with previous
    damage 0 and current damage above 0.  Rows counted by none of the
    three are the [Same] rows, so the three counters add up to at most
    the number of rows. *)
Theorem summary_counters (prev_df last_df : list row) :
  ∃ comp, compute_comparison prev_df last_df = Ok comp ∧
  Main.increased comp
    = length (filter (λ r, 0 < prev_damage r ∧ prev_damage r < last_damage r) comp) ∧
  Main.decreased comp
    = length (filter (λ r, 0 < prev_damage r ∧ last_damage r < prev_damage r) comp) ∧
  Main.new_players comp
    = length (filter (λ r, prev_damage r = 0 ∧ 0 < last_damage r) comp) ∧
  (Main.increased comp + Main.decreased comp + Main.new_players comp
     + Main.count_change Same comp = length comp)%nat.
Proof.
  eexists. split; [apply compute_comparison_eq |].
  set (comp := sort_desc sort_key (merged_rows prev_df last_df)).
  pose proof (row_label_cases prev_df last_df) as H. fold comp in H.
  assert (∀ (P Q : comparison → Prop) `{∀ r, Decision (P r)} `{∀ r, Decision (Q r)}
            (l : list comparison),
            (∀ r, r ∈ l → P r ↔ Q r) → length (filter P l) = length (filter Q l)) as Hext.
  { intros P Q ? ? l Hl. f_equal. induction l as [| x l IH]; [done |].
    rewrite !filter_cons.
    assert (∀ r, r ∈ l → P r ↔ Q r) as Hl' by (intros r ?; apply Hl; by right).
    destruct (decide (P x)) as [HP | HP], (decide (Q x)) as [HQ | HQ].
    - by rewrite IH.
    - destruct HQ. apply Hl; [left | done].
    - destruct HP. apply Hl; [left | done].
    - by apply IH. }
  unfold Main.increased, Main.decreased, Main.new_players, Main.count_change.
  split_and!.
  - apply Hext. intros r Hr. apply (H r Hr).
  - apply Hext. intros r Hr. apply (H r Hr).
  - apply Hext. intros r Hr. apply (H r Hr).
  - clear. induction comp as [| r comp IH]; [done |].
    rewrite !filter_cons. destruct (change r); simpl in *;
      repeat (case_decide; simplify_eq/=); lia.
Qed.

End Labels.

(** ** The order of names, and the tables selected by default *)

Lemma compare_not_gt_trans (a b c : string) :
  String.compare a b ≠ Gt → String.compare b c ≠ Gt → String.compare a c ≠ Gt.
Proof.
  revert b c. induction a as [| x a IH]; intros [| y b] [| z c]; simpl; try done.
  unfold Ascii.compare.
  destruct (N.compare_spec (N_of_ascii x) (N_of_ascii y)),
           (N.compare_spec (N_of_ascii y) (N_of_ascii z)),
           (N.compare_spec (N_of_ascii x) (N_of_ascii z));
    try done; try lia.
  apply IH.
Qed.

Lemma str_le_alt (s t : string) : str_le s t ↔ String.compare s t ≠ Gt.
Proof. unfold str_le, String.leb. by destruct (String.compare s t). Qed.

Lemma str_le_trans : Transitive str_le.
Proof. intros a b c. rewrite !str_le_alt. apply compare_not_gt_trans. Qed.

Lemma str_le_total : Total str_le.
Proof. intros a b. apply String.leb_total. Qed.

Lemma str_le_refl (s : string) : str_le s s.
Proof. by destruct (str_le_total s s). Qed.

Lemma flip_str_le_trans : Transitive (flip str_le).
Proof. intros a b c Hab Hbc. unfold flip in *. by eapply str_le_trans. Qed.

Lemma flip_str_le_total : Total (flip str_le).
Proof. intros a b. unfold flip. apply str_le_total. Qed.

Lemma get_record_tables_sorted (master : list schema_entry) :
  StronglySorted str_le (get_record_tables master).
Proof.
  apply (@Sorted_StronglySorted _ _ str_le_trans).
  apply (@Sorted_merge_sort _ str_le _ str_le_total).
Qed.

Lemma get_record_tables_desc_sorted (master : list schema_entry) :
  StronglySorted (flip str_le) (get_record_tables_desc master).
Proof.
  apply (@Sorted_StronglySorted _ _ flip_str_le_trans).
  apply (@Sorted_merge_sort _ (flip str_le) _ flip_str_le_total).
Qed.

(** In a list sorted by [R], the element a select box shows for the
    last index is [R]-above every element, and the one it shows for
    the index before stands between the rest and the last. *)
Lemma sorted_selection (R : relation string) (tables : list string) :
  (∀ s, R s s) → StronglySorted R tables → tables ≠ [] →
  ∃ p l, Main.sel_prev tables = Some p ∧ Main.sel_last tables = Some l ∧
         R p l ∧ (∀ t, t ∈ tables → R t l) ∧ (∀ t, t ∈ tables → t ≠ l → R t p).
Proof.
  intros Hrefl Hsorted Hne.
  assert (0 < length tables)%nat as Hlen by (destruct tables; [done | simpl; lia]).
  unfold Main.sel_prev, Main.sel_last, selectbox.
  rewrite !(proj2 (andb_true_iff _ _)) by (split; [apply Z.leb_le | apply Z.ltb_lt]; lia).
  destruct (lookup_lt_is_Some_2 tables (Z.to_nat (Z.of_nat (length tables) - 1))
              ltac:(lia)) as [l Hl].
  destruct (lookup_lt_is_Some_2 tables (Z.to_nat (Z.max 0 (Z.of_nat (length tables) - 2)))
              ltac:(lia)) as [p Hp].
  exists p, l. split_and!; [done | done | | |].
  - destruct (decide (length tables = 1%nat)) as [E | E].
    + rewrite E in Hl, Hp.
      replace (Z.to_nat (Z.of_nat 1 - 1)) with 0%nat in Hl by lia.
      replace (Z.to_nat (Z.max 0 (Z.of_nat 1 - 2))) with 0%nat in Hp by lia.
      simplify_eq. apply Hrefl.
    + eapply (StronglySorted_lookup R); [done | exact Hp | exact Hl | lia].
  - intros t [i Hi]%list_elem_of_lookup.
    pose proof (lookup_lt_Some _ _ _ Hi) as Hlt.
    destruct (decide (i = Z.to_nat (Z.of_nat (length tables) - 1))) as [-> | Hne'].
    + simplify_eq. apply Hrefl.
    + eapply (StronglySorted_lookup R); [done | exact Hi | exact Hl | lia].
  - intros t [i Hi]%list_elem_of_lookup Htl.
    pose proof (lookup_lt_Some _ _ _ Hi) as Hlt.
    destruct (decide (i = Z.to_nat (Z.of_nat (length tables) - 1))) as [-> | Hne'];
      [by simplify_eq |].
    destruct (decide (i = Z.to_nat (Z.max 0 (Z.of_nat (length tables) - 2)))) as [-> | Hne''].
    + simplify_eq. apply Hrefl.
    + eapply (StronglySorted_lookup R); [done | exact Hi | exact Hp | lia].
Qed.

(** X3: with at least one table, neither select box is given an index
    outside its options, and the two show [tables[-1]] and
    [tables[-2] if len(tables) >= 2 else tables[-1]], the defaults
    [main] computes beside them; with a single table both show it. *)
Theorem default_selection (tables : list string) :
  tables ≠ [] →
  ∃ p l, Main.sel_prev tables = Some p ∧ Main.sel_last tables = Some l ∧
         Main.default_prev tables = Some p ∧ Main.default_last tables = Some l ∧
         last tables = Some l ∧
         (length tables = 1%nat → p = l) ∧
         (2 ≤ length tables → tables !! (length tables - 2)%nat = Some p)%nat.
Proof.
  intros Hne.
  assert (0 < length tables)%nat as Hlen by (destruct tables; [done | simpl; lia]).
  unfold Main.sel_prev, Main.sel_last, Main.default_prev, Main.default_last,
    selectbox, py_index.
  rewrite !(proj2 (andb_true_iff _ _)) by (split; [apply Z.leb_le | apply Z.ltb_lt]; lia).
  destruct (lookup_lt_is_Some_2 tables (length tables - 1) ltac:(lia)) as [l Hl].
  destruct (lookup_lt_is_Some_2 tables (Z.to_nat (Z.max 0 (Z.of_nat (length tables) - 2)))
              ltac:(lia)) as [p Hp].
  exists p, l.
  replace (Z.to_nat (Z.of_nat (length tables) - 1)) with (length tables - 1)%nat by lia.
  replace (Z.to_nat (Z.of_nat (length tables) + -1)) with (length tables - 1)%nat by lia.
  assert ((0 <=? -1) = false) as -> by done.
  assert ((0 <=? -2) = false) as -> by done.
  assert ((-1 <? 0) = true) as -> by done.
  assert ((-2 <? 0) = true) as -> by done.
  rewrite (proj2 (Z.leb_le (- Z.of_nat (length tables)) (-1))) by lia.
  simpl. split_and!; try done.
  - destruct (Z.leb_spec 2 (Z.of_nat (length tables))) as [H2 | H2].
    + rewrite (proj2 (Z.leb_le (- Z.of_nat (length tables)) (-2))) by lia.
      simpl. rewrite <- Hp. f_equal. lia.
    + rewrite <- Hp. f_equal. lia.
  - rewrite last_lookup, <- Hl. f_equal. lia.
  - intros E. rewrite E in Hl, Hp.
    replace (Z.to_nat (Z.max 0 (Z.of_nat 1 - 2))) with 0%nat in Hp by lia.
    simpl in Hl. by simplify_eq.
  - intros H2. rewrite <- Hp. f_equal. lia.
Qed.

Lemma default_selection_witness :
  Main.sel_prev ["raid_1"; "raid_2"; "raid_3"]%string = Some "raid_2"%string ∧
  Main.sel_last ["raid_1"; "raid_2"; "raid_3"]%string = Some "raid_3"%string.
Proof.
  destruct (default_selection ["raid_1"; "raid_2"; "raid_3"]%string ltac:(done))
    as (p & l & Hp & Hl & _ & _ & Hlast & _ & Hprev).
  simpl in Hlast. specialize (Hprev ltac:(simpl; lia)). simpl in Hprev.
  by simplify_eq.
Defined.

Lemma get_record_tables_elem_of (master : list schema_entry) (t : string) :
  t ∈ get_record_tables master ↔
  ∃ e, e ∈ master ∧ entry_type e = "table"%string ∧ entry_name e = t
       ∧ t ≠ "sqlite_sequence"%string.
Proof.
  unfold get_record_tables. rewrite merge_sort_Permutation, list_elem_of_fmap.
  setoid_rewrite list_elem_of_filter. unfold is_record_table. split.
  - intros (e & -> & [? ?] & ?). by exists e.
  - intros (e & ? & ? & <- & ?). by exists e.
Qed.

(** X4: in [dashboard.py], where the tables come in ascending order of
    name, the table selected as current is the one with the greatest
    name, and the table selected as previous has the greatest name
    among the others; it never comes after the current one.  The
    tables offered are the entries of type [table] other than
    [sqlite_sequence]. *)
Theorem default_tables_ascending (master : list schema_entry) :
  get_record_tables master ≠ [] →
  ∃ p l, Main.sel_prev (get_record_tables master) = Some p ∧
         Main.sel_last (get_record_tables master) = Some l ∧
         str_le p l ∧
         (∀ t, t ∈ get_record_tables master → str_le t l) ∧
         (∀ t, t ∈ get_record_tables master → t ≠ l → str_le t p) ∧
         (∀ t, t ∈ get_record_tables master ↔
               ∃ e, e ∈ master ∧ entry_type e = "table"%string ∧ entry_name e = t
                    ∧ t ≠ "sqlite_sequence"%string).
Proof.
  intros Hne.
  destruct (sorted_selection str_le _ str_le_refl (get_record_tables_sorted master) Hne)
    as (p & l & ? & ? & ? & ? & ?).
  exists p, l. split_and!; try done. apply get_record_tables_elem_of.
Qed.

Lemma default_tables_ascending_witness :
  ∃ p l,
    Main.sel_prev (get_record_tables
      [SchemaEntry "table" "raid_2"; SchemaEntry "table" "sqlite_sequence";
       SchemaEntry "index" "idx"; SchemaEntry "table" "raid_1"]) = Some p ∧
    Main.sel_last (get_record_tables
      [SchemaEntry "table" "raid_2"; SchemaEntry "table" "sqlite_sequence";
       SchemaEntry "index" "idx"; SchemaEntry "table" "raid_1"]) = Some l ∧
    str_le p l.
Proof.
  destruct (default_tables_ascending
    [SchemaEntry "table" "raid_2"; SchemaEntry "table" "sqlite_sequence";
     SchemaEntry "index" "idx"; SchemaEntry "table" "raid_1"] ltac:(by vm_compute))
    as (p & l & Hp & Hl & Hpl & _).
  by exists p, l.
Defined.

(** X5: in [dashboard_streamlit.py], where the same query ends in
    [ORDER BY name DESC] and the select boxes keep the same indices,
    the table selected as current is the one with the least name, and
    the table selected as previous never comes before it. *)
Theorem default_tables_descending (master : list schema_entry) :
  get_record_tables_desc master ≠ [] →
  ∃ p l, Main.sel_prev (get_record_tables_desc master) = Some p ∧
         Main.sel_last (get_record_tables_desc master) = Some l ∧
         str_le l p ∧
         (∀ t, t ∈ get_record_tables_desc master → str_le l t) ∧
         (∀ t, t ∈ get_record_tables_desc master → t ≠ l → str_le p t) ∧
         get_record_tables_desc master ≡ₚ get_record_tables master.
Proof.
  intros Hne.
  destruct (sorted_selection (flip str_le) _ str_le_refl
              (get_record_tables_desc_sorted master) Hne)
    as (p & l & ? & ? & ? & ? & ?).
  exists p, l. split_and!; try done.
  unfold get_record_tables_desc, get_record_tables.
  by rewrite !merge_sort_Permutation.
Qed.

Lemma default_tables_descending_witness :
  ∃ p l,
    Main.sel_prev (get_record_tables_desc
      [SchemaEntry "table" "raid_2"; SchemaEntry "table" "raid_3";
       SchemaEntry "table" "raid_1"]) = Some p ∧
    Main.sel_last (get_record_tables_desc
      [SchemaEntry "table" "raid_2"; SchemaEntry "table" "raid_3";
       SchemaEntry "table" "raid_1"]) = Some l ∧
    str_le l p.
Proof.
  destruct (default_tables_descending
    [SchemaEntry "table" "raid_2"; SchemaEntry "table" "raid_3";
     SchemaEntry "table" "raid_1"] ltac:(by vm_compute))
    as (p & l & Hp & Hl & Hpl & _).
  by exists p, l.
Defined.

Example default_tables_of_three :
  Main.sel_last (get_record_tables
    [SchemaEntry "table" "raid_2"; SchemaEntry "table" "raid_3";
     SchemaEntry "table" "raid_1"]) = Some "raid_3"%string ∧
  Main.sel_prev (get_record_tables
    [SchemaEntry "table" "raid_2"; SchemaEntry "table" "raid_3";
     SchemaEntry "table" "raid_1"]) = Some "raid_2"%string ∧
  Main.sel_last (get_record_tables_desc
    [SchemaEntry "table" "raid_2"; SchemaEntry "table" "raid_3";
     SchemaEntry "table" "raid_1"]) = Some "raid_1"%string ∧
  Main.sel_prev (get_record_tables_desc
    [SchemaEntry "table" "raid_2"; SchemaEntry "table" "raid_3";
     SchemaEntry "table" "raid_1"]) = Some "raid_2"%string.
Proof. by vm_compute. Qed.

(** ** The participation table *)

Lemma wrap_add_r (x y : Z) : Int64.wrap (x + Int64.wrap y) = Int64.wrap (x + y).
Proof. by rewrite (Z.add_comm x), wrap_add_l, Z.add_comm. Qed.

Lemma wrap_wrap (x : Z) : Int64.wrap (Int64.wrap x) = Int64.wrap x.
Proof. pose proof (wrap_add_l x 0) as H. by rewrite !Z.add_0_r in H. Qed.

Lemma total_fold (df : list row) (a : Z) :
  Int64.wrap (foldl (λ acc r, Int64.add acc (damage r)) a df)
  = Int64.wrap (a + sum_damage df).
Proof.
  revert a. induction df as [| r df IH]; intros a; simpl.
  - by rewrite Z.add_0_r.
  - rewrite IH. unfold Int64.add. rewrite wrap_add_l. f_equal. lia.
Qed.

Lemma total_wrapped (df : list row) (a : Z) :
  Int64.wrap a = a →
  Int64.wrap (foldl (λ acc r, Int64.add acc (damage r)) a df)
  = foldl (λ acc r, Int64.add acc (damage r)) a df.
Proof.
  revert a. induction df as [| r df IH]; intros a Ha; simpl; [done |].
  apply IH. apply wrap_wrap.
Qed.

(** The total is the sum of the damages of all rows, wrapped. *)
Lemma total_wrap (df : list row) : Main.total df = Int64.wrap (sum_damage df).
Proof.
  unfold Main.total. by rewrite <- (total_wrapped df 0), total_fold.
Qed.

Lemma sum_totals_perm (l1 l2 : list (string * Z)) :
  l1 ≡ₚ l2 → sum_totals l1 = sum_totals l2.
Proof. induction 1; simpl; lia. Qed.

(** One step of the group-by adds the damage of its row to the sum of
    the totals, up to wrap-around. *)
Lemma group_step_sum (m : gmap string Z) (k : string) (d : Z) :
  Int64.wrap (sum_totals (map_to_list (<[k := Int64.add (default 0 (m !! k)) d]> m)))
  = Int64.wrap (sum_totals (map_to_list m) + d).
Proof.
  unfold Int64.add. destruct (m !! k) as [old |] eqn:E; simpl.
  - rewrite <- (insert_delete_eq m).
    rewrite (sum_totals_perm _ _ (map_to_list_insert _ _ _ (lookup_delete_eq m k))).
    rewrite <- (sum_totals_perm _ _ (map_to_list_delete m k old E)).
    simpl. rewrite wrap_add_l. f_equal. lia.
  - rewrite (sum_totals_perm _ _ (map_to_list_insert _ _ _ E)). simpl.
    rewrite Z.add_0_l, wrap_add_l. f_equal. lia.
Qed.

Lemma group_fold_sum (df : list row) (m : gmap string Z) :
  Int64.wrap (sum_totals (map_to_list
    (foldl (λ m r, <[name r := Int64.add (default 0 (m !! name r)) (damage r)]> m) m df)))
  = Int64.wrap (sum_totals (map_to_list m) + sum_damage df).
Proof.
  revert m. induction df as [| r df IH]; intros m; simpl.
  - by rewrite Z.add_0_r.
  - rewrite IH, <- wrap_add_l, group_step_sum, wrap_add_l. f_equal. lia.
Qed.

Lemma aggregate_sum (df : list row) :
  Int64.wrap (sum_totals (aggregate df)) = Int64.wrap (sum_damage df).
Proof.
  rewrite (sum_totals_perm _ _ (aggregate_perm_map df)).
  unfold group_sum. rewrite group_fold_sum, map_to_list_empty. done.
Qed.

Lemma sort_le_inject_Z (a b : Z) :
  Float.sort_le (Fin (inject_Z a)) (Fin (inject_Z b)) = true ↔ a ≤ b.
Proof. simpl. by rewrite Qle_bool_iff, <- Zle_Qle. Qed.

Lemma aggregate_nil_iff (df : list row) : aggregate df = [] ↔ df = [].
Proof.
  split; [| by intros ->].
  intros Hnil. destruct df as [| r df]; [done |].
  assert (name r ∈ (aggregate (r :: df)).*1) as Hin by (apply aggregate_keys; left).
  rewrite Hnil in Hin. by apply elem_of_nil in Hin.
Qed.

Lemma aggregate_length (df : list row) :
  length (aggregate df) = length (remove_dups (name <$> df)).
Proof.
  rewrite <- (length_fmap fst). apply Permutation_length, NoDup_Permutation.
  - apply aggregate_NoDup.
  - apply NoDup_remove_dups.
  - intros k. by rewrite aggregate_keys, elem_of_remove_dups.
Qed.

Section Participation.

Context {sorter : ArgSort}.

Lemma agg_last_perm (df : list row) : Main.agg_last df ≡ₚ aggregate df.
Proof. apply sort_desc_perm. Qed.

Lemma agg_last_sorted (df : list row) :
  StronglySorted (λ x y : string * Z, y.2 ≤ x.2) (Main.agg_last df).
Proof.
  assert (Transitive (λ x y : string * Z, y.2 ≤ x.2)) as Htrans
    by (intros x y z ? ?; lia).
  apply (@Sorted_StronglySorted _ _ Htrans).
  pose proof (sort_desc_sorted Main.damage_key (aggregate df)) as Hs.
  fold (Main.agg_last df) in Hs.
  induction Hs as [| x l _ IH Hhd]; constructor; [done |].
  destruct Hhd as [| y l Hxy]; constructor. by apply sort_le_inject_Z.
Qed.

(** X6: the participation table is the aggregated frame in another
    order, and its damages add up, in [int64] arithmetic, to the total
    shown above it: grouping neither drops nor counts twice the damage
    of a row.  The total is the plain sum of the damages of all rows
    whenever that sum fits [int64]. *)
Theorem participation_total (last_df : list row) :
  Main.agg_last last_df ≡ₚ aggregate last_df ∧
  Int64.wrap (sum_totals (Main.agg_last last_df)) = Main.total last_df ∧
  Main.total last_df = Int64.wrap (sum_damage last_df) ∧
  (Int64.in_range (sum_damage last_df) = true → Main.total last_df = sum_damage last_df).
Proof.
  split_and!.
  - apply agg_last_perm.
  - by rewrite (sum_totals_perm _ _ (agg_last_perm last_df)), aggregate_sum, total_wrap.
  - apply total_wrap.
  - intros Hr. by rewrite total_wrap, wrap_small.
Qed.

(** X7: the card of the top player shows ["N/A"] for an empty frame;
    for any other frame it shows a name of the aggregated frame whose
    total no other total exceeds. *)
Theorem top_player_has_most_damage (last_df : list row) :
  (last_df = [] → Main.top_player last_df = "N/A"%string) ∧
  (last_df ≠ [] →
     ∃ v, (Main.top_player last_df, v) ∈ aggregate last_df ∧
          ∀ k w, (k, w) ∈ aggregate last_df → w ≤ v).
Proof.
  unfold Main.top_player. split.
  - intros ->.
    assert (Main.agg_last [] = []) as ->; [| done].
    apply Permutation_nil_r. by rewrite agg_last_perm.
  - intros Hne. pose proof (agg_last_perm last_df) as Hperm.
    pose proof (agg_last_sorted last_df) as Hsorted.
    destruct (Main.agg_last last_df) as [| [k v] l] eqn:E.
    + apply Permutation_nil_l in Hperm. symmetry in Hperm.
      by apply aggregate_nil_iff in Hperm.
    + exists v. split; [rewrite <- Hperm; left |].
      intros k' w. rewrite <- Hperm. intros [[= -> ->] | Hin]%elem_of_cons; [done |].
      apply StronglySorted_inv in Hsorted as [_ Hall].
      rewrite Forall_forall in Hall. apply (Hall (k', w) Hin).
Qed.

(** X8: the average card divides the total by the number of distinct
    canonical names, not by the number of rows; the division rounds
    toward minus infinity, is never by zero, and an empty frame shows
    0. *)
Theorem avg_damage_per_name (last_df : list row) :
  let n := Z.of_nat (length (remove_dups (name <$> last_df))) in
  (last_df = [] → Main.avg_damage last_df = 0) ∧
  (last_df ≠ [] →
     0 < n ∧ Main.avg_damage last_df = Main.total last_df / n ∧
     n * Main.avg_damage last_df ≤ Main.total last_df
       < n * Main.avg_damage last_df + n).
Proof.
  simpl. unfold Main.avg_damage.
  rewrite (Permutation_length (agg_last_perm last_df)), aggregate_length.
  split.
  - by intros ->.
  - intros Hne.
    assert (0 < Z.of_nat (length (remove_dups (name <$> last_df)))) as Hn.
    { rewrite <- aggregate_length.
      destruct (aggregate last_df) eqn:E; [by apply aggregate_nil_iff in E | simpl; lia]. }
    rewrite (proj2 (Z.ltb_lt _ _) Hn). split_and!; [done | done | |].
    + apply Z.mul_div_le. lia.
    + pose proof (Z.mul_succ_div_gt (Main.total last_df) _ Hn). lia.
Qed.

End Participation.

(** ** The table that is shown *)






Lemma top_rows_subseteq {A : Type} (n : Z) (l : list A) (x : A) :
  x ∈ top_rows n l → x ∈ l.
Proof.
  unfold top_rows, head. repeat case_match; try done; apply (subseteq_take _ l).
Qed.

Section Display.

Context {sorter : ArgSort} {case : CaseMap} {reader : NumericReader}.

Lemma loaded_names (table : list stored_row) (df : list row) :
  load_table (damage_query table) = Ok df →
  name <$> df = str_upper ∘ s_username <$> table.
Proof.
  intros [Hu Hn]%load_table_names.
  assert (name <$> df = str_upper <$> (username <$> df)) as ->.
  { rewrite <- list_fmap_compose. apply list_fmap_ext. intros i r Hr. simpl.
    apply Hn. by eapply list_elem_of_lookup_2. }
  rewrite Hu. unfold damage_query. by rewrite <- !list_fmap_compose.
Qed.



End Display.


(** With two stored rows for one canonical name, the top 2 are shown
    in three rows. *)
Example display_more_than_top_n :
  Main.display
    [StoredRow "foo" (Integer 3) (Some "21/21"%string);
     StoredRow "FOO" (Integer 4) None;
     StoredRow "baz" (Integer 10) (Some "21/21"%string)]
    [Row "foo" 3 "FOO"; Row "FOO" 4 "FOO"; Row "baz" 10 "BAZ"] 2
  = [Main.DisplayRow "BAZ" 10 "58.82%" "21/21";
     Main.DisplayRow "FOO" 7 "41.18%" "21/21";
     Main.DisplayRow "FOO" 7 "41.18%" "N/A"].
Proof. by vm_compute. Qed.

(** ** The comparison as it is shown *)

Lemma fmt_pct_fin (q : Q) :
  fmt_pct (Fin q)
  = ((if Qle_bool 0 q then "+" else "-") ++ Format.fixed2 (Qabs q) ++ "%")%string.
Proof.
  unfold fmt_pct. simpl. by destruct (Qle_bool 0 q).
Qed.

(** What [fmt_pct] prints for the percentage of a row, by the label of
    the row. *)
Lemma fmt_pct_by_label (pv ls : Z) :
  match label_row (pct_row pv ls) with
  | New => fmt_pct (pct_row pv ls) = "∞"%string
  | Same => fmt_pct (pct_row pv ls) = "+0.00%"%string
  | Up => ∃ s, fmt_pct (pct_row pv ls) = String "+" s
  | Down => ∃ s, fmt_pct (pct_row pv ls) = String "-" s
  end.
Proof.
  rewrite label_of_damages.
  destruct (Z.ltb_spec 0 pv) as [Hpv | Hpv].
  - destruct (pct_positive_baseline pv ls Hpv) as (q & -> & Hup & Hdown & Hsame).
    rewrite fmt_pct_fin.
    destruct (Z.ltb_spec pv ls) as [Hlt | Hge];
      [| destruct (Z.ltb_spec ls pv) as [Hlt | Hge']].
    + assert (Qle_bool 0 q = true) as ->
        by (by apply Qle_bool_iff, Qlt_le_weak, Hup).
      by eexists.
    + assert (Qle_bool 0 q = false) as ->.
      { apply not_true_iff_false. intros H%Qle_bool_iff.
        apply Qle_not_lt in H. by apply H, Hdown. }
      by eexists.
    + by rewrite (Hsame ltac:(lia)).
  - unfold pct_row. rewrite (proj2 (Z.ltb_ge 0 pv) Hpv).
    by destruct ((pv =? 0) && (0 <? ls)).
Qed.

Section Shown.

Context {sorter : ArgSort}.

(** X10: every row of the comparison that is shown comes from a row of
    the comparison and prints its percentage by its label: the glyph
    of infinity for exactly the [New] rows, which are also exactly the
    rows with the icon of a new player; ["+0.00%"] for every [Same]
    row; a text that starts with [+] for an [Up] row and with [-] for
    a [Down] row. *)
Theorem comparison_as_shown (prev_df last_df : list row) (top_n : Z) :
  ∃ comp, compute_comparison prev_df last_df = Ok comp ∧
  ∀ c, c ∈ Main.comp_display_show comp top_n →
    ∃ r, r ∈ comp ∧
      Main.jugador c = c_name r ∧ Main.prev_shown c = prev_damage r ∧
      Main.last_shown c = last_damage r ∧
      (Main.cambio c = "∞"%string ↔ change r = New) ∧
      (Main.tipo c = "🆕"%string ↔ change r = New) ∧
      (change r = Same → Main.cambio c = "+0.00%"%string) ∧
      (change r = Up → ∃ s, Main.cambio c = String "+" s) ∧
      (change r = Down → ∃ s, Main.cambio c = String "-" s).
Proof.
  eexists. split; [apply compute_comparison_eq |].
  intros c Hc%top_rows_subseteq. apply list_elem_of_fmap in Hc as (r & -> & Hr).
  exists r. split; [done |]. simpl.
  destruct (comparison_row_fields _ _ _ r (compute_comparison_eq _ _) Hr) as [Hpct Hlab].
  pose proof (fmt_pct_by_label (prev_damage r) (last_damage r)) as Hfmt.
  rewrite <- Hpct, <- Hlab in Hfmt.
  split_and!; try done.
  - destruct (change r).
    + destruct Hfmt as [s ->]. split; discriminate.
    + destruct Hfmt as [s ->]. split; discriminate.
    + rewrite Hfmt. split; discriminate.
    + by rewrite Hfmt.
  - destruct (change r); simpl; split; done || discriminate.
  - intros E. by rewrite E in Hfmt.
  - intros E. by rewrite E in Hfmt.
  - intros E. by rewrite E in Hfmt.
Qed.

End Shown.

(** ** The ten largest increases and decreases *)

Lemma head_of_sorted {A : Type} (R : relation A) (n : Z) (l : list A) (x y : A) :
  0 ≤ n → StronglySorted R l → x ∈ head n l → y ∈ l → y ∉ head n l → R x y.
Proof.
  intros Hn Hsorted. unfold head. rewrite (proj2 (Z.ltb_ge n 0) Hn).
  intros (i & Hi & Hlt)%elem_of_take Hy Hny.
  rewrite <- (take_drop (Z.to_nat n) l), elem_of_app in Hy.
  destruct Hy as [Hy | Hy]; [done |].
  apply list_elem_of_lookup in Hy as [j Hj]. rewrite lookup_drop in Hj.
  eapply (StronglySorted_lookup R); [done | exact Hi | exact Hj | lia].
Qed.

Lemma head_length {A : Type} (n : Z) (l : list A) :
  0 ≤ n → (length (head n l) ≤ Z.to_nat n)%nat.
Proof.
  intros Hn. unfold head. rewrite (proj2 (Z.ltb_ge n 0) Hn), length_take. lia.
Qed.

Lemma head_subseteq {A : Type} (n : Z) (l : list A) (x : A) : x ∈ head n l → x ∈ l.
Proof. unfold head. case_match; apply (subseteq_take _ l). Qed.

Lemma head_all {A : Type} (n : Z) (l : list A) :
  (length l ≤ Z.to_nat n)%nat → head n l = l.
Proof.
  intros Hl. unfold head. destruct (Z.ltb_spec n 0); apply firstn_all2; lia.
Qed.

Lemma sort_le_opposite (p q : Q) :
  Float.sort_le (Main.opposite (Fin p)) (Main.opposite (Fin q)) = true →
  Float.sort_le (Fin q) (Fin p) = true.
Proof.
  simpl. rewrite !Qle_bool_iff. intros H%Qopp_le_compat.
  by rewrite !Qopp_involutive in H.
Qed.

Section TopLists.

Context {sorter : ArgSort}.

Lemma sorted_by_key {A : Type} (key : A → float64) (l : list A) :
  StronglySorted (λ x y, Float.sort_le (key y) (key x) = true) (sort_desc key l).
Proof.
  assert (Transitive (λ x y : A, Float.sort_le (key y) (key x) = true)) as Htrans
    by (intros x y z ? ?; by eapply sort_le_trans).
  apply (@Sorted_StronglySorted _ _ Htrans), sort_desc_sorted.
Qed.

(** X11: the two charts take their rows from the comparison: at most
    ten rows each, all labelled [Up] for the one and [Down] for the
    other; an [Up] row that is left out has a percentage no larger than
    any row of the first list, a [Down] row that is left out a
    percentage no smaller than any row of the second; and when the
    comparison has at most ten rows of a label, the list has them
    all. *)
Theorem top_lists (prev_df last_df : list row) :
  ∃ comp, compute_comparison prev_df last_df = Ok comp ∧
  (length (Main.top_up comp) ≤ 10)%nat ∧ (length (Main.top_down comp) ≤ 10)%nat ∧
  (∀ s, s ∈ Main.top_up comp → s ∈ comp ∧ change s = Up) ∧
  (∀ s, s ∈ Main.top_down comp → s ∈ comp ∧ change s = Down) ∧
  (∀ r s, r ∈ comp → change r = Up → r ∉ Main.top_up comp →
     s ∈ Main.top_up comp →
     Float.sort_le (pct_change r) (pct_change s) = true) ∧
  (∀ r s, r ∈ comp → change r = Down → r ∉ Main.top_down comp →
     s ∈ Main.top_down comp →
     Float.sort_le (pct_change s) (pct_change r) = true) ∧
  ((Main.increased comp ≤ 10)%nat →
     ∀ r, r ∈ comp → change r = Up → r ∈ Main.top_up comp) ∧
  ((Main.decreased comp ≤ 10)%nat →
     ∀ r, r ∈ comp → change r = Down → r ∈ Main.top_down comp).
Proof.
  eexists. split; [apply compute_comparison_eq |].
  set (comp := sort_desc sort_key (merged_rows prev_df last_df)).
  assert (∀ r, r ∈ comp → change r = Down → ∃ q, pct_change r = Fin q) as Hfin.
  { intros r Hr Hlab.
    destruct (comparison_row_fields _ _ comp r (compute_comparison_eq _ _) Hr) as [Hpct Hl].
    destruct (pct_row_cases (prev_damage r) (last_damage r)) as [E | [q E]];
      rewrite <- Hpct in E; [| by exists q].
    by rewrite Hl, E in Hlab. }
  unfold Main.top_up, Main.top_down, Main.increased, Main.decreased, Main.count_change.
  split_and!.
  - apply (head_length 10). lia.
  - apply (head_length 10). lia.
  - intros s Hs%head_subseteq. rewrite sort_desc_perm in Hs.
    by apply list_elem_of_filter in Hs as [? ?].
  - intros s Hs%head_subseteq. rewrite sort_desc_perm in Hs.
    by apply list_elem_of_filter in Hs as [? ?].
  - intros r s Hr Hlab Hout Hs.
    eapply (head_of_sorted (λ x y, Float.sort_le (pct_change y) (pct_change x) = true)
              10 _ s r); [lia | apply (sorted_by_key pct_change) | done | | done].
    rewrite sort_desc_perm. by apply list_elem_of_filter.
  - intros r s Hr Hlab Hout Hs.
    pose proof (head_of_sorted
      (λ x y, Float.sort_le (Main.opposite (pct_change y)) (Main.opposite (pct_change x))
              = true) 10 _ s r ltac:(lia)
      (sorted_by_key (λ r, Main.opposite (pct_change r)) _) Hs) as H.
    simpl in H.
    assert (s ∈ comp ∧ change s = Down) as [Hs1 Hs2].
    { apply head_subseteq in Hs. rewrite sort_desc_perm in Hs.
      by apply list_elem_of_filter in Hs as [? ?]. }
    destruct (Hfin r Hr Hlab) as [p Hp], (Hfin s Hs1 Hs2) as [q Hq].
    rewrite Hp, Hq in H |- *. apply sort_le_opposite, H; [| done].
    rewrite sort_desc_perm. by apply list_elem_of_filter.
  - intros Hle r Hr Hlab. rewrite head_all.
    + rewrite sort_desc_perm. by apply list_elem_of_filter.
    + rewrite (Permutation_length (sort_desc_perm _ _)). simpl. lia.
  - intros Hle r Hr Hlab. rewrite head_all.
    + rewrite sort_desc_perm. by apply list_elem_of_filter.
    + rewrite (Permutation_length (sort_desc_perm _ _)). simpl. lia.
Qed.

End TopLists.

(** ** The players with all their rounds *)

Section Active.

Context {sorter : ArgSort} {case : CaseMap} {reader : NumericReader}.

(** X12: the active players are the stored rows whose rounds are
    [21/21]; a row without rounds is not among them.  When the frame was
    loaded from the stored table and some player is active, the
    participation table is not empty, so the share of active players,
    with the number of active rows and the number of names as its
    operands, is a quotient and not a division by zero.  The count of
    active players is a count of stored rows: it is at most the number
    of names in the participation table when no two stored rows share
    a canonical name. *)
Theorem active_players_share (table : list stored_row) (last_df : list row) :
  load_table (damage_query table) = Ok last_df →
  let total_active := Z.of_nat (length (Main.active_players table)) in
  let n_players := Z.of_nat (length (Main.agg_last last_df)) in
  (∀ s, s ∈ Main.active_players table ↔ s ∈ table ∧ s_rounds s = Some "21/21"%string) ∧
  (Main.active_players table ≠ [] →
     0 < n_players ∧
     Main.active_participation total_active n_players
     = Quotient (Float.mul (Float.int_truediv total_active n_players) hundred)) ∧
  (NoDup (str_upper ∘ s_username <$> table) → total_active ≤ n_players).
Proof.
  intros Hload total_active n_players. split_and!.
  - intros s. unfold Main.active_players. rewrite list_elem_of_filter.
    destruct (s_rounds s) as [t |]; simpl; split; intros [? ?]; split; try done;
      congruence.
  - intros Hne.
    assert (table ≠ []) as Ht by (intros ->; done).
    assert (last_df ≠ []) as Hdf.
    { intros ->. apply loaded_names in Hload. by destruct table. }
    assert (0 < n_players) as Hlen.
    { unfold n_players. rewrite (Permutation_length (agg_last_perm last_df)).
      destruct (aggregate last_df) eqn:E; [by apply aggregate_nil_iff in E | simpl; lia]. }
    split; [done |]. unfold Main.active_participation, py_truediv.
    by rewrite (proj2 (Z.eqb_neq _ 0)) by lia.
  - intros Hnd. unfold total_active, n_players. apply inj_le.
    rewrite (Permutation_length (agg_last_perm last_df)), aggregate_length.
    rewrite (loaded_names _ _ Hload).
    assert (length (remove_dups (str_upper ∘ s_username <$> table)) = length table) as ->.
    { rewrite <- (length_fmap (str_upper ∘ s_username) table).
      apply Permutation_length, NoDup_Permutation;
        [apply NoDup_remove_dups | done |].
      intros k. apply elem_of_remove_dups. }
    unfold Main.active_players. apply length_filter.
Qed.

End Active.

Lemma active_players_share_witness :
  Main.active_participation
    (Z.of_nat (length (Main.active_players
       [StoredRow "foo" (Integer 3) (Some "21/21"%string);
        StoredRow "FOO" (Integer 4) (Some "21/21"%string)])))
    (Z.of_nat (length (Main.agg_last
       [Row "foo" 3 "FOO"; Row "FOO" 4 "FOO"])))
  = Quotient (Float.mul (Float.int_truediv 2 1) hundred).
Proof.
  destruct (active_players_share (sorter := merge_argsort)
    [StoredRow "foo" (Integer 3) (Some "21/21"%string);
     StoredRow "FOO" (Integer 4) (Some "21/21"%string)]
    [Row "foo" 3 "FOO"; Row "FOO" 4 "FOO"] ltac:(by vm_compute)) as (_ & H & _).
  exact (proj2 (H ltac:(by vm_compute))).
Defined.

(** Two stored rows of one player, both with all rounds: the share of
    active players is 200. *)
Example active_share_above_100 :
  Main.active_participation
    (Z.of_nat (length (Main.active_players
       [StoredRow "foo" (Integer 3) (Some "21/21"%string);
        StoredRow "FOO" (Integer 4) (Some "21/21"%string)])))
    (Z.of_nat (length (Main.agg_last
       [Row "foo" 3 "FOO"; Row "FOO" 4 "FOO"])))
  = Quotient 200.
Proof. by vm_compute. Qed.

(** ** What [load_table] and [aggregate] return *)

Section Outcome.

Context {case : CaseMap} {reader : NumericReader}.

Lemma integers_as_int (zs : list Z) :
  mapM Column.as_int (Column.coerce <$> (Integer <$> zs)) = Some zs.
Proof.
  apply mapM_Some. rewrite <- list_fmap_compose.
  induction zs as [| z zs IH]; [constructor |]. rewrite fmap_cons. by constructor.
Qed.

(** X14: [load_table] raises exactly when [pd.to_numeric] reads some
    damage cell as an infinity.  When it returns, the frame has one row
    for each row of the table, in the same order, with the user name
    unchanged and its upper-case form as canonical name; a cell that
    cannot be read as a number, is missing or is the empty text gives
    the damage 0; and a table whose damage cells are all integers of
    [int64] loads with just those damages. *)
Theorem load_table_outcome (table : list raw_row) :
  (load_table table = Raise IntCastingNaNError ↔
     ∃ r b, r ∈ table ∧ Column.coerce (raw_damage r) = FloatVal (Inf b)) ∧
  (∀ df, load_table table = Ok df →
     length df = length table ∧
     username <$> df = raw_username <$> table ∧
     (∀ r, r ∈ df → name r = str_upper (username r)) ∧
     (∀ i raw r, table !! i = Some raw → df !! i = Some r →
        Column.coerce (raw_damage raw) = FloatVal NaN → damage r = 0)) ∧
  (∀ zs, raw_damage <$> table = Integer <$> zs →
     Forall (λ z, z ≤ Int64.max_int) zs →
     ∃ df, load_table table = Ok df ∧ damage <$> df = zs) ∧
  Column.coerce Null = FloatVal NaN ∧
  Column.coerce (Text "") = FloatVal NaN ∧
  Column.coerce (reader := pandas_reader) (Text "n/a") = FloatVal NaN.
Proof.
  split_and!; [apply load_table_raises_iff | | | done | done | by vm_compute].
  - intros df Hload. destruct (load_table_names _ _ Hload) as [Hu Hn].
    split_and!; [| done | done |].
    + by rewrite <- (length_fmap username), Hu, length_fmap.
    + intros i raw r Hraw Hr Hnan. by eapply load_table_failed_parse.
  - intros zs Hcells Hzs. unfold load_table, Column.to_numeric.
    rewrite Hcells, integers_as_int.
    assert (forallb (λ z, z <=? Int64.max_int) zs = true) as ->.
    { apply forallb_forall. intros z Hz%list_elem_of_In. apply Z.leb_le.
      by apply (proj1 (Forall_forall _ _) Hzs). }
    eexists. split; [done |].
    assert (length zs = length table) as Hlen
      by (by rewrite <- (length_fmap Integer), <- Hcells, length_fmap).
    clear Hcells Hzs. revert zs Hlen.
    induction table as [| raw table IH]; intros [| z zs] Hlen; simplify_eq/=; [done |].
    f_equal. by apply IH.
Qed.

End Outcome.

Lemma wrap_in_range (z : Z) : Int64.in_range (Int64.wrap z) = true.
Proof.
  unfold Int64.in_range, Int64.wrap, Int64.min_int, Int64.max_int.
  pose proof (Z.mod_pos_bound (z + 2 ^ 63) (2 ^ 64) ltac:(lia)).
  apply andb_true_iff; split; apply Z.leb_le; lia.
Qed.

Lemma name_le_trans : Transitive name_le.
Proof. intros x y z. unfold name_le. apply str_le_trans. Qed.

Lemma name_le_total : Total name_le.
Proof. intros x y. unfold name_le. apply str_le_total. Qed.

(** X15: the aggregated frame lists the canonical names of the frame,
    each once, in ascending order; the damage beside a name is the
    [int64] sum of the rows with that name, so it lies within
    [int64]; the frame is empty only for an empty input. *)
Theorem aggregate_invariants (df : list row) :
  StronglySorted name_le (aggregate df) ∧
  NoDup (aggregate df).*1 ∧
  (∀ k, k ∈ (aggregate df).*1 ↔ k ∈ name <$> df) ∧
  (∀ k v, (k, v) ∈ aggregate df →
     v = Int64.wrap (sum_damage (group_rows k df)) ∧ Int64.in_range v = true) ∧
  (aggregate df = [] ↔ df = []).
Proof.
  split_and!.
  - apply (@Sorted_StronglySorted _ _ name_le_trans).
    apply (@Sorted_merge_sort _ name_le _ name_le_total).
  - apply aggregate_NoDup.
  - apply aggregate_keys.
  - intros k v Hkv. apply aggregate_elem_of in Hkv. rewrite group_sum_lookup in Hkv.
    case_decide; [| done]. injection Hkv as <-. split; [done | apply wrap_in_range].
  - apply aggregate_nil_iff.
Qed.

(** ** The percentage in terms of the totals *)

Lemma round_half_even_error (n d : Z) :
  0 < d → 0 ≤ n → Z.abs (2 * (Float.round_half_even n d * d - n)) ≤ d.
Proof.
  intros Hd Hn. unfold Float.round_half_even.
  pose proof (Z.div_mod n d ltac:(lia)) as Hdm.
  pose proof (Z.mod_pos_bound n d Hd) as Hr.
  destruct (Z.compare_spec (2 * (n mod d)) d); [destruct (Z.even (n / d)) |..]; nia.
Qed.

(** The fraction that is rounded to an integer is at least [2 ^ 52]. *)
Lemma scaled_52 (n d : positive) :
  2 ^ 52 * (Float.scale (Z.pos n) (Z.pos d) (Float.binade n d - 52)).2
  ≤ (Float.scale (Z.pos n) (Z.pos d) (Float.binade n d - 52)).1.
Proof.
  pose proof (binade_ge_1 n d) as H. unfold scaled_ge_1, Float.scale in *.
  set (b := Float.binade n d) in *.
  destruct (Z.leb_spec 0 b) as [Hb | Hb], (Z.leb_spec 0 (b - 52)) as [He | He];
    simpl in *; try lia.
  - replace (2 ^ b) with (2 ^ 52 * 2 ^ (b - 52)) in H
      by (rewrite <- Z.pow_add_r by lia; f_equal; lia). lia.
  - replace (2 ^ 52) with (2 ^ b * 2 ^ (- (b - 52)))
      by (rewrite <- Z.pow_add_r by lia; f_equal; lia).
    pose proof (pow2_ge_1 (- (b - 52)) ltac:(lia)). nia.
  - replace (2 ^ (- (b - 52))) with (2 ^ (- b) * 2 ^ 52)
      by (rewrite <- Z.pow_add_r by lia; f_equal; lia). nia.
Qed.

Lemma round_pos_error (n d : positive) :
  (Qabs (Float.round_pos n d - (Z.pos n # d)) * inject_Z (2 ^ 53) <= Z.pos n # d)%Q.
Proof.
  unfold Float.round_pos.
  pose proof (scaled_52 n d) as H52.
  set (e := Float.binade n d - 52) in *.
  destruct (Float.scale (Z.pos n) (Z.pos d) e) as [n' d'] eqn:E. simpl in H52.
  unfold Float.scale in E.
  destruct (Z.leb_spec 0 e) as [He | He]; injection E as <- <-.
  - pose proof (pow2_ge_1 e He) as Hp.
    pose proof (round_half_even_error (Z.pos n) (Z.pos d * 2 ^ e) ltac:(nia) ltac:(lia)) as Hm.
    set (m := Float.round_half_even _ _) in *.
    unfold Qle, Qmult, Qminus, Qplus, Qopp, Qabs, inject_Z. simpl.
    change (2 ^ 53) with (2 * 2 ^ 52) in *. nia.
  - pose proof (pow2_ge_1 (- e) ltac:(lia)) as Hp.
    pose proof (round_half_even_error (Z.pos n * 2 ^ (- e)) (Z.pos d) ltac:(lia) ltac:(nia)) as Hm.
    set (m := Float.round_half_even _ _) in *.
    rewrite Qred_correct.
    unfold Qle, Qmult, Qminus, Qplus, Qopp, Qabs, inject_Z. simpl.
    rewrite !Pos2Z.inj_mul, Z2Pos.id by lia.
    change (2 ^ 53) with (2 * 2 ^ 52) in *. nia.
Qed.

(** Rounding to 53 bits moves a value by at most [2 ^ -53] of it. *)
Lemma round53_error (q : Q) :
  (Qabs (Float.round53 q - q) * inject_Z (2 ^ 53) <= Qabs q)%Q.
Proof.
  destruct q as [[| n | n] d]; unfold Float.round53; simpl Qnum; simpl Qden; cbv iota.
  - unfold Qle, Qmult, Qminus, Qplus, Qopp, Qabs, inject_Z. simpl. lia.
  - apply (round_pos_error n d).
  - pose proof (round_pos_error n d) as H.
    assert (- Float.round_pos n d - (Z.neg n # d) == - (Float.round_pos n d - (Z.pos n # d)))%Q
      as -> by (unfold Qeq, Qminus, Qplus, Qopp; simpl; lia).
    by rewrite Qabs_opp.
Qed.

(** A division and a multiplication by 100, each rounded, stay within
    [2 ^ -51] of the exact value. *)
Lemma two_roundings (t x q : Q) :
  (Qabs (x - t) * inject_Z (2 ^ 53) <= Qabs t)%Q →
  (Qabs (q - x * 100) * inject_Z (2 ^ 53) <= Qabs (x * 100))%Q →
  (Qabs (q - t * 100) * inject_Z (2 ^ 51) <= Qabs (t * 100))%Q.
Proof.
  change (inject_Z (2 ^ 53)) with 9007199254740992%Q.
  change (inject_Z (2 ^ 51)) with 2251799813685248%Q.
  apply (Qabs_case (x - t)); intros K1;
  apply (Qabs_case t); intros K2;
  apply (Qabs_case (q - x * 100)); intros K3;
  apply (Qabs_case (x * 100)); intros K4;
  apply (Qabs_case (q - t * 100)); intros K5;
  apply (Qabs_case (t * 100)); intros K6 H1 H2; lra.
Qed.

Lemma pct_row_error (pv ls : Z) :
  0 < pv →
  ∃ q, pct_row pv ls = Fin q ∧
       q = Float.mul (Float.int_truediv (ls - pv) pv) hundred ∧
       (Qabs (q - exact_pct pv ls) * inject_Z (2 ^ 51) <= Qabs (exact_pct pv ls))%Q.
Proof.
  intros Hpv. unfold pct_row. rewrite (proj2 (Z.ltb_lt 0 pv) Hpv).
  eexists. split_and!; [done | done |].
  unfold Float.mul, Float.int_truediv, exact_pct, hundred.
  apply (two_roundings _ (Float.round53 (inject_Z (ls - pv) / inject_Z pv)));
    apply round53_error.
Qed.

Lemma total_of_lookup (df : list row) (k : string) :
  total_of df k = default 0 (group_sum df !! k).
Proof. unfold total_of. by rewrite aggregate_to_map. Qed.

Lemma joined_total keys (df : list row) (k : string) :
  Z.abs (total_of df k) ≤ 2 ^ 53 → joined keys (group_sum df) k = total_of df k.
Proof.
  rewrite total_of_lookup. destruct (group_sum df !! k) as [v |] eqn:E; simpl.
  - intros Hv. by apply joined_small.
  - intros _. by apply joined_absent.
Qed.

Lemma NoDup_fmap_elem_inj {A B : Type} (f : A → B) (l : list A) (x y : A) :
  NoDup (f <$> l) → x ∈ l → y ∈ l → f x = f y → x = y.
Proof.
  intros Hnd [i Hi]%list_elem_of_lookup [j Hj]%list_elem_of_lookup Hf.
  assert (i = j) as ->; [| congruence].
  apply (NoDup_lookup _ i j (f x) Hnd).
  - by rewrite list_lookup_fmap, Hi.
  - by rewrite list_lookup_fmap, Hj, Hf.
Qed.

Section Totals.

Context {sorter : ArgSort}.

(** X16: for every name of either snapshot whose totals are integers of
    at most 53 bits, the comparison has exactly one row; the row holds
    the two totals (0 for a snapshot without the name) and its
    percentage follows the rule on them: over a positive previous
    total it is [(last - prev) / prev * 100.0], which is the exact
    change in percent up to a relative error of [2 ^ -51]; over a
    previous total of 0 it is positive infinity when the current total
    is above 0; and it is 0 in every other case. *)
Theorem pct_change_of_totals (prev_df last_df : list row) :
  ∃ rows, compute_comparison prev_df last_df = Ok rows ∧
  ∀ k, k ∈ name <$> prev_df ∨ k ∈ name <$> last_df →
    let prev := total_of prev_df k in
    let last := total_of last_df k in
    Z.abs prev ≤ 2 ^ 53 → Z.abs last ≤ 2 ^ 53 →
    ∃ r, r ∈ rows ∧ c_name r = k ∧
      (∀ r', r' ∈ rows → c_name r' = k → r' = r) ∧
      prev_damage r = prev ∧ last_damage r = last ∧
      (0 < prev →
         ∃ q, pct_change r = Fin q ∧
              q = Float.mul (Float.int_truediv (last - prev) prev) hundred ∧
              (Qabs (q - exact_pct prev last) * inject_Z (2 ^ 51)
               <= Qabs (exact_pct prev last))%Q) ∧
      (prev = 0 → 0 < last → pct_change r = Inf false) ∧
      (prev = 0 → last ≤ 0 → pct_change r = Fin 0) ∧
      (prev < 0 → pct_change r = Fin 0).
Proof.
  eexists. split; [apply compute_comparison_eq |].
  pose proof (sort_desc_perm sort_key (merged_rows prev_df last_df)) as Hperm.
  intros k Hk prev last Hprev Hlast.
  set (keys := merge_keys (aggregate prev_df) (aggregate last_df)).
  exists (make_comparison k prev last).
  assert (make_comparison k prev last ∈ sort_desc sort_key (merged_rows prev_df last_df))
    as Hin.
  { rewrite Hperm.
    apply (merged_rows_elem_of prev_df last_df (make_comparison k prev last)).
    simpl. fold keys. split.
    - apply merge_keys_elem_of. by rewrite !aggregate_keys.
    - by rewrite !joined_total. }
  split_and!; try done.
  - intros r' Hr' Hname.
    assert (NoDup (c_name <$> sort_desc sort_key (merged_rows prev_df last_df))) as Hnd
      by (rewrite Hperm, merged_rows_names; apply merge_keys_NoDup).
    apply (NoDup_fmap_elem_inj c_name _ _ _ Hnd Hr' Hin). by rewrite Hname.
  - simpl. apply pct_row_error.
  - intros E Hpos. simpl. by rewrite E, pct_row_from_zero, (proj2 (Z.ltb_lt 0 last) Hpos).
  - intros E Hle. simpl. by rewrite E, pct_row_from_zero, (proj2 (Z.ltb_ge 0 last) Hle).
  - intros Hneg. simpl. unfold pct_row.
    rewrite (proj2 (Z.ltb_ge 0 prev)) by lia.
    by rewrite (proj2 (Z.eqb_neq prev 0)) by lia.
Qed.

End Totals.

(** A fall from 300 to 200 is a change by a third: the exact
    percentage is [-100 / 3], and the two roundings give
    [-33.33333333333333]. *)
Example pct_change_third :
  compute_comparison (sorter := merge_argsort) [Row "a" 300 "A"] [Row "a" 200 "A"]
  = Ok [Comparison "A" 300 200 (Fin (-2345624805922133 # 70368744177664)) Down] ∧
  (exact_pct 300 200 == -100 # 3)%Q.
Proof. split; by vm_compute. Qed.
